(** * ai-secrets: the keyring-backed secrets store and its metadata index

    A shallow embedding of [src/ai_secrets/storage.py].  The class
    [SecretsStore] coordinates two independently failing stores: the OS
    keyring (values) and a JSON metadata file (names only).  Both live
    outside the program, so they are modelled as an explicit [world] that
    every method threads through a small state-and-exception monad. *)

From Stdlib Require Import Ascii String ZArith Lia.
From stdpp Require Import gmap strings list fin_maps.

Set Warnings "-register-all,-clear-no-such-hyp".

(** ** Python values read from and written to the metadata file *)

(** What [json.loads] can return.  A JSON object keeps its members in
    textual order; [dict_get] and [dict_keys] below give them the meaning
    of the Python [dict] that [json.loads] builds.  Numbers are kept as
    integers, no claim looks inside them. *)
Inductive json : Type :=
| JNull
| JBool (b : bool)
| JNum (n : Z)
| JStr (s : string)
| JArr (items : list json)
| JObj (members : list (string * json)).

(** [d.get(k)]: of several members with the same key the last one wins. *)
Fixpoint dict_get (k : string) (ms : list (string * json)) : option json :=
  match ms with
  | [] => None
  | (k', v) :: rest =>
      match dict_get k rest with
      | Some v' => Some v'
      | None => if String.eqb k' k then Some v else None
      end
  end.

(** [list(d.keys())]: insertion order, every key once, at the place of its
    first occurrence. *)
Fixpoint dict_keys (ms : list (string * json)) : list string :=
  match ms with
  | [] => []
  | (k, _) :: rest => k :: filter (λ k', k' ≠ k) (dict_keys rest)
  end.

(** Truth value of a Python object, as used by [not x] and [if x:]. *)
Definition truthy (j : json) : bool :=
  match j with
  | JNull => false
  | JBool b => b
  | JNum n => negb (n =? 0)%Z
  | JStr s => negb (String.eqb s "")
  | JArr items => match items with [] => false | _ => true end
  | JObj ms => match ms with [] => false | _ => true end
  end.

(** [x == name] for a string [name]: a string equals only the same string. *)
Definition eq_str (name : string) (j : json) : bool :=
  match j with
  | JStr s => String.eqb s name
  | _ => false
  end.

(** [name in names] *)
Definition contains (name : string) (names : list json) : bool :=
  existsb (eq_str name) names.

(** [names.remove(name)]: drops the first equal element. *)
Fixpoint list_remove (name : string) (names : list json) : list json :=
  match names with
  | [] => []
  | j :: rest => if eq_str name j then rest else j :: list_remove name rest
  end.

(** [names.count(name)] *)
Fixpoint list_count (name : string) (names : list json) : nat :=
  match names with
  | [] => 0
  | j :: rest => (if eq_str name j then 1 else 0) + list_count name rest
  end.

(** ** [str.strip()] *)

(** [str.isspace] on the code points below 256. *)
Definition is_space (c : ascii) : bool :=
  let n := nat_of_ascii c in
  (((9 <=? n) && (n <=? 13)) || ((28 <=? n) && (n <=? 32))
   || (n =? 133) || (n =? 160))%nat.

Fixpoint lstrip (s : string) : string :=
  match s with
  | EmptyString => EmptyString
  | String c r => if is_space c then lstrip r else s
  end.

Fixpoint rstrip (s : string) : string :=
  match s with
  | EmptyString => EmptyString
  | String c r =>
      match rstrip r with
      | EmptyString => if is_space c then EmptyString else String c EmptyString
      | r' => String c r'
      end
  end.

Definition strip (s : string) : string := rstrip (lstrip s).

(** [not s or not s.strip()] *)
Definition blank (s : string) : bool :=
  String.eqb s "" || String.eqb (strip s) "".

(** [s.replace(old, "_")] for a one-character [old]. *)
Fixpoint replace_char (old : ascii) (s : string) : string :=
  match s with
  | EmptyString => EmptyString
  | String c r =>
      String (if Ascii.eqb c old then "_"%char else c) (replace_char old r)
  end.

(** ** The world outside the program *)

(** The text of a file as [json.loads] sees it: either it raises
    [JSONDecodeError] or it decodes to a value. *)
Inductive text : Type :=
| Unparsable (raw : string)
| Parsed (doc : json).

(** [json.dumps] produces text that decodes to the value it was given. *)
Definition json_dumps (j : json) : text := Parsed j.

(** Calls that leave the process, in the order they were attempted. *)
Inductive event : Type :=
| KrSet (service name value : string)
| KrGet (service name : string)
| KrDelete (service name : string)
| FsExists (path : string)
| FsRead (path : string)
| FsMkdir (path : string) (mode : Z)
| FsWrite (path : string) (data : text)
| FsChmod (path : string) (mode : Z).

(** Which calls the platform refuses.  These stand for a locked keyring,
    missing permissions, a full disk and the like. *)
Record faults : Type := Faults {
  keyring_down : bool;   (* every keyring call raises *)
  read_denied : bool;    (* read_text raises *)
  mkdir_denied : bool;   (* mkdir raises *)
  open_denied : bool;    (* opening for writing raises, file untouched *)
  write_broken : bool;   (* the write raises after the file was truncated *)
  chmod_denied : bool    (* chmod raises *)
}.

Definition no_faults : faults := Faults false false false false false false.

Record world : Type := World {
  keyring_db : gmap (string * string) string;  (* (service, name) -> value *)
  dirs : gset string;
  files : gmap string text;
  env : faults;
  trace : list event
}.

Definition log (e : event) (w : world) : world :=
  World (keyring_db w) (dirs w) (files w) (env w) (trace w ++ [e]).

Definition with_keyring (db : gmap (string * string) string) (w : world) : world :=
  World db (dirs w) (files w) (env w) (trace w).

Definition with_dirs (d : gset string) (w : world) : world :=
  World (keyring_db w) d (files w) (env w) (trace w).

Definition with_files (f : gmap string text) (w : world) : world :=
  World (keyring_db w) (dirs w) f (env w) (trace w).

(** ** Exceptions and the monad of effects *)

Inductive exn : Type :=
| ValueError (msg : string)
| OSError (msg : string)
| JSONDecodeError
| AttributeError
| KeyringError.

Inductive result (A : Type) : Type :=
| Ok (a : A)
| Raise (e : exn).
Arguments Ok {A} a.
Arguments Raise {A} e.

Definition M (A : Type) : Type := world → result A * world.

Definition ret {A} (a : A) : M A := λ w, (Ok a, w).

Definition raise {A} (e : exn) : M A := λ w, (Raise e, w).

Definition bind {A B} (m : M A) (k : A → M B) : M B :=
  λ w, match m w with
       | (Ok a, w') => k a w'
       | (Raise e, w') => (Raise e, w')
       end.

(** [try: m  except ...: raise h(e)]; [h] returns [None] for the
    exceptions the clause does not name, which then pass through. *)
Definition try_except {A} (m : M A) (h : exn → option exn) : M A :=
  λ w, match m w with
       | (Ok a, w') => (Ok a, w')
       | (Raise e, w') =>
           (Raise (match h e with Some e' => e' | None => e end), w')
       end.

Definition lift {A} (r : result A) : M A := λ w, (r, w).

Declare Scope monad_scope.
Delimit Scope monad_scope with monad.
Notation "x <- m ;; k" := (bind m (λ x, k))
  (at level 100, m at next level, right associativity) : monad_scope.
Notation "m ;;; k" := (bind m (λ _, k))
  (at level 100, right associativity) : monad_scope.
Open Scope monad_scope.

(** ** The keyring backend

    [keyring.set_password], [get_password] and [delete_password], with the
    behaviour of the in-memory backend the tests install: a dictionary keyed
    by service and name, where deleting a missing entry does nothing.  A
    backend that is down raises on every call and changes nothing. *)
Module keyring.

Definition set_password (service name value : string) : M unit :=
  λ w, let w := log (KrSet service name value) w in
       if keyring_down (env w) then (Raise KeyringError, w)
       else (Ok tt, with_keyring (<[(service, name) := value]> (keyring_db w)) w).

Definition get_password (service name : string) : M (option string) :=
  λ w, let w := log (KrGet service name) w in
       if keyring_down (env w) then (Raise KeyringError, w)
       else (Ok (keyring_db w !! (service, name)), w).

Definition delete_password (service name : string) : M unit :=
  λ w, let w := log (KrDelete service name) w in
       if keyring_down (env w) then (Raise KeyringError, w)
       else (Ok tt, with_keyring (base.delete (service, name) (keyring_db w)) w).

End keyring.

(** ** The file system calls of [pathlib.Path] that the store uses *)
Module Path.

(** [base / name] *)
Definition join (base name : string) : string := base +:+ "/" +:+ name.

Definition exists_ (p : string) : M bool :=
  λ w, (Ok (bool_decide (is_Some (files w !! p))), log (FsExists p) w).

Definition read_text (p : string) : M text :=
  λ w, let w := log (FsRead p) w in
       if read_denied (env w) then (Raise (OSError "read_text"), w)
       else match files w !! p with
            | Some t => (Ok t, w)
            | None => (Raise (OSError "read_text"), w)
            end.

(** [mkdir(mode, exist_ok=True)] *)
Definition mkdir (p : string) (mode : Z) : M unit :=
  λ w, let w := log (FsMkdir p mode) w in
       if mkdir_denied (env w) then (Raise (OSError "mkdir"), w)
       else (Ok tt, with_dirs ({[p]} ∪ dirs w) w).

(** [write_text] opens the file with mode ["w"], which empties it (or
    creates it empty), and only then writes the data.  A write that fails
    leaves what was written so far, here the empty text. *)
Definition write_text (p : string) (data : text) : M unit :=
  λ w, let w := log (FsWrite p data) w in
       if open_denied (env w) then (Raise (OSError "open"), w)
       else
         let w := with_files (<[p := Unparsable ""]> (files w)) w in
         if write_broken (env w) then (Raise (OSError "write"), w)
         else (Ok tt, with_files (<[p := data]> (files w)) w).

Definition chmod (p : string) (mode : Z) : M unit :=
  λ w, let w := log (FsChmod p mode) w in
       if chmod_denied (env w) then (Raise (OSError "chmod"), w)
       else (Ok tt, w).

End Path.

(** [json.loads] *)
Definition json_loads (t : text) : result json :=
  match t with
  | Unparsable _ => Raise JSONDecodeError
  | Parsed j => Ok j
  end.

(** ** class SecretsStore *)
Module SecretsStore.

Record t : Type := Store {
  service_name : string;
  base_dir : string;
  metadata_file : string
}.

Definition default_service_name : string := "ai-secrets".

(** [__init__(service_name, base_dir)]; [home] is [Path.home()]. *)
Definition __init__ (home : string) (service_name : string)
    (base_dir : option string) : result t :=
  if blank service_name then Raise (ValueError "service_name cannot be empty")
  else
    let service := strip service_name in
    let base := match base_dir with
                | Some d => d
                | None => Path.join home ".secrets"
                end in
    let safe_service_name := replace_char "\"%char (replace_char "/"%char service) in
    Ok (Store service base
          (Path.join base ("metadata_" +:+ safe_service_name +:+ ".json"))).

(** The permission bits [0o700] and [0o600]. *)
Definition mode_0o700 : Z := 448.
Definition mode_0o600 : Z := 384.

Definition _setup_dirs (self : t) : M unit :=
  try_except (Path.mkdir (base_dir self) mode_0o700)
    (λ e, match e with
          | OSError _ => Some (OSError "Failed to create directory")
          | _ => None
          end).

(** [data.get("secrets", [])]: only a dict has [get]. *)
Definition get_secrets (data : json) : result json :=
  match data with
  | JObj ms => Ok (match dict_get "secrets" ms with
                   | Some v => v
                   | None => JArr []
                   end)
  | _ => Raise AttributeError
  end.

Definition _load_names (self : t) : M (list json) :=
  present <- Path.exists_ (metadata_file self) ;;
  if negb present then ret []
  else
    try_except
      (txt <- Path.read_text (metadata_file self) ;;
       data <- lift (json_loads txt) ;;
       secrets <- lift (get_secrets data) ;;
       match secrets with
       | JObj ms => ret (JStr <$> dict_keys ms)
       | JArr items => ret items
       | _ => ret []
       end)
      (λ e, match e with
            | JSONDecodeError => Some (ValueError "Invalid JSON in metadata file")
            | OSError _ => Some (OSError "Failed to read metadata file")
            | _ => None
            end).

(** The document [{"secrets": names}]. *)
Definition index_doc (names : list json) : json :=
  JObj [("secrets", JArr names)].

Definition _save_names (self : t) (names : list json) : M unit :=
  _setup_dirs self ;;;
  try_except
    (Path.write_text (metadata_file self) (json_dumps (index_doc names)) ;;;
     Path.chmod (metadata_file self) mode_0o600)
    (λ e, match e with
          | OSError _ => Some (OSError "Failed to write metadata file")
          | _ => None
          end).

Definition set (self : t) (name value : string) : M unit :=
  if blank name then raise (ValueError "Secret name cannot be empty")
  else if String.eqb value "" then raise (ValueError "Secret value cannot be empty")
  else
    try_except (keyring.set_password (service_name self) (strip name) value)
      (λ _, Some (OSError "Failed to store secret in keyring")) ;;;
    names <- _load_names self ;;
    if negb (contains name names) then _save_names self (names ++ [JStr name])
    else ret tt.

Definition get (self : t) (name : string) : M (option string) :=
  if blank name then raise (ValueError "Secret name cannot be empty")
  else
    try_except (keyring.get_password (service_name self) (strip name))
      (λ _, Some (OSError "Failed to retrieve secret from keyring")).

Definition delete (self : t) (name : string) : M bool :=
  if blank name then raise (ValueError "Secret name cannot be empty")
  else
    found <- get self name ;;
    match found with
    | None => ret false
    | Some _ =>
        try_except (keyring.delete_password (service_name self) (strip name))
          (λ _, Some (OSError "Failed to delete secret from keyring")) ;;;
        names <- _load_names self ;;
        (if contains name names then _save_names self (list_remove name names)
         else ret tt) ;;;
        ret true
    end.

Definition list_names (self : t) : M (list json) := _load_names self.

(** [self.get(n)] for an element of the loaded list, which need not be a
    string: [not n] raises [ValueError] for a falsy value, and a truthy
    value that is no string has no [strip]. *)
Definition get_item (self : t) (n : json) : M (option string) :=
  match n with
  | JStr name => get self name
  | _ => if truthy n then raise AttributeError
         else raise (ValueError "Secret name cannot be empty")
  end.

(** The loop of [export_env]; [result[n] = v] is reached for strings only. *)
Fixpoint export_loop (self : t) (names : list json)
    (result : gmap string string) : M (gmap string string) :=
  match names with
  | [] => ret result
  | n :: rest =>
      v <- get_item self n ;;
      match n, v with
      | JStr name, Some value =>
          if negb (String.eqb value "")
          then export_loop self rest (<[name := value]> result)
          else export_loop self rest result
      | _, _ => export_loop self rest result
      end
  end.

Definition export_env (self : t) : M (gmap string string) :=
  names <- _load_names self ;;
  export_loop self names ∅.

End SecretsStore.

(** ** Programs that print

    The scripts and the command line call the store and print.  What they
    print is kept beside the world, so that it is still there when an
    exception ends the program; [E] is the type of what can be raised. *)

Inductive outcome (E A : Type) : Type :=
| Return (a : A)
| Throw (e : E).
Arguments Return {E A} a.
Arguments Throw {E A} e.

Definition P (E O A : Type) : Type :=
  world * list O → outcome E A * (world * list O).

Definition retP {E O A} (a : A) : P E O A := λ s, (Return a, s).

Definition throw {E O A} (e : E) : P E O A := λ s, (Throw e, s).

Definition bindP {E O A B} (m : P E O A) (k : A → P E O B) : P E O B :=
  λ s, match m s with
       | (Return a, s') => k a s'
       | (Throw e, s') => (Throw e, s')
       end.

(** A call of a method of the store; [inj] says how its exceptions are
    seen among those of the program. *)
Definition call {E O A} (inj : exn → E) (m : M A) : P E O A :=
  λ s, match m (fst s) with
       | (Ok a, w') => (Return a, (w', snd s))
       | (Raise e, w') => (Throw (inj e), (w', snd s))
       end.

Definition print {E O} (o : O) : P E O unit :=
  λ s, (Return tt, (fst s, snd s ++ [o])).

(** [for x in xs: print(f x)] *)
Fixpoint print_each {E O A} (f : A → O) (xs : list A) : P E O unit :=
  match xs with
  | [] => retP tt
  | x :: rest => bindP (print (f x)) (λ _, print_each f rest)
  end.

(** [try: m  except ...: h]; [h] is [None] for what the clause does not
    name. *)
Definition except {E O A} (m : P E O A) (h : E → option (P E O A)) : P E O A :=
  λ s, match m s with
       | (Return a, s') => (Return a, s')
       | (Throw e, s') =>
           match h e with
           | Some handler => handler s'
           | None => (Throw e, s')
           end
       end.

Notation "x <~ m ;; k" := (bindP m (λ x, k))
  (at level 100, m at next level, right associativity) : monad_scope.
Notation "m ;;> k" := (bindP m (λ _, k))
  (at level 100, right associativity) : monad_scope.

(** [self.get(n)], [self.set(n, value)] and [self.delete(n)] as the
    scripts call them, with an element [n] of the loaded list that need
    not be a string; the three methods start with the same test. *)
Definition set_item (self : SecretsStore.t) (n : json) (value : string) : M unit :=
  match n with
  | JStr name => SecretsStore.set self name value
  | _ => if truthy n then raise AttributeError
         else raise (ValueError "Secret name cannot be empty")
  end.

Definition delete_item (self : SecretsStore.t) (n : json) : M bool :=
  match n with
  | JStr name => SecretsStore.delete self name
  | _ => if truthy n then raise AttributeError
         else raise (ValueError "Secret name cannot be empty")
  end.

(** ** migrate_service_name.py *)
Module migrate_service_name.

(** The lines the script prints, by the [print] that writes them. *)
Inductive line : Type :=
| NoSecrets                     (* No secrets found in old 'ai-keys' service *)
| Found (count : nat)           (* Found {count} secrets in 'ai-keys': *)
| Item (name : json)            (*   - {name} *)
| Migrating                     (* Migrating... *)
| Migrated (name : json)        (*   (check mark) {name} *)
| Unreadable (name : json)      (*   (warning sign) {name} (could not read value) *)
| Summary (migrated total : nat)  (* Migrated {migrated}/{total} secrets to 'ai-secrets' *)
| StillThere                    (* Your old secrets in 'ai-keys' are still there. *)
| DeleteWith                    (* You can delete them with: *)
| DeleteCommand.                (* uv run python -m ai_secrets ... delete SECRET_NAME --yes *)

Definition prog (A : Type) : Type := P exn line A.

(** The second loop of [migrate]; [migrated] is the counter. *)
Fixpoint migrate_loop (old_store new_store : SecretsStore.t)
    (names : list json) (migrated : nat) : prog nat :=
  match names with
  | [] => retP migrated
  | name :: rest =>
      value <~ call id (SecretsStore.get_item old_store name) ;;
      match value with
      | Some v =>
          if negb (String.eqb v "")
          then call id (set_item new_store name v) ;;>
               print (Migrated name) ;;>
               migrate_loop old_store new_store rest (S migrated)
          else print (Unreadable name) ;;>
               migrate_loop old_store new_store rest migrated
      | None =>
          print (Unreadable name) ;;>
          migrate_loop old_store new_store rest migrated
      end
  end.

(** [migrate()]; [home] is [Path.home()]. *)
Definition migrate (home : string) : prog unit :=
  old_store <~ call id (lift (SecretsStore.__init__ home "ai-keys" None)) ;;
  new_store <~ call id (lift (SecretsStore.__init__ home "ai-secrets" None)) ;;
  old_secrets <~ call id (SecretsStore.list_names old_store) ;;
  match old_secrets with
  | [] => print NoSecrets
  | _ =>
      print (Found (length old_secrets)) ;;>
      print_each Item old_secrets ;;>
      print Migrating ;;>
      migrated <~ migrate_loop old_store new_store old_secrets 0 ;;
      print (Summary migrated (length old_secrets)) ;;>
      print StillThere ;;>
      print DeleteWith ;;>
      print DeleteCommand
  end.

End migrate_service_name.

(** ** cleanup_old_service.py *)
Module cleanup_old_service.

(** [str.lower] on the code points below 256: the letters [A] to [Z] and
    the capital letters from 192 to 222, the multiplication sign 215
    apart, move up by 32. *)
Definition lower_char (c : ascii) : ascii :=
  let n := nat_of_ascii c in
  if (((65 <=? n) && (n <=? 90))
      || ((192 <=? n) && (n <=? 222) && negb (n =? 215)))%nat
  then ascii_of_nat (n + 32) else c.

Fixpoint lower (s : string) : string :=
  match s with
  | EmptyString => EmptyString
  | String c r => String (lower_char c) (lower r)
  end.

Inductive line : Type :=
| AlreadyClean                  (* No secrets found in old 'ai-keys' service - already clean! *)
| Warning (count : nat)         (* WARNING: About to delete {count} secrets from 'ai-keys': *)
| Item (name : json)            (*   - {name} *)
| AreYouSure                    (* the prompt of input: Are you sure? Type 'yes' to confirm: *)
| Cancelled                     (* Cancelled - no secrets deleted *)
| Deleting                      (* Deleting... *)
| Deleted (name : json)         (*   (check mark) Deleted {name} *)
| Failed (name : json)          (*   (warning sign) Failed to delete {name} *)
| Summary (deleted total : nat) (* Deleted {deleted}/{total} secrets from 'ai-keys' *)
| Unaffected.                   (* Your new secrets in 'ai-secrets' are unaffected. *)

Definition prog (A : Type) : Type := P exn line A.

(** The loop of [cleanup]; [deleted] is the counter. *)
Fixpoint cleanup_loop (old_store : SecretsStore.t) (names : list json)
    (deleted : nat) : prog nat :=
  match names with
  | [] => retP deleted
  | name :: rest =>
      gone <~ call id (delete_item old_store name) ;;
      if (gone : bool)
      then print (Deleted name) ;;> cleanup_loop old_store rest (S deleted)
      else print (Failed name) ;;> cleanup_loop old_store rest deleted
  end.

(** [cleanup()]; [home] is [Path.home()] and [response] what [input]
    returns. *)
Definition cleanup (home : string) (response : string) : prog unit :=
  old_store <~ call id (lift (SecretsStore.__init__ home "ai-keys" None)) ;;
  old_secrets <~ call id (SecretsStore.list_names old_store) ;;
  match old_secrets with
  | [] => print AlreadyClean
  | _ =>
      print (Warning (length old_secrets)) ;;>
      print_each Item old_secrets ;;>
      print AreYouSure ;;>
      if negb (String.eqb (lower response) "yes") then print Cancelled
      else
        print Deleting ;;>
        deleted <~ cleanup_loop old_store old_secrets 0 ;;
        print (Summary deleted (length old_secrets)) ;;>
        print Unaffected
  end.

End cleanup_old_service.

(** ** secrets_cli/cli.py: the commands [get] and [delete]

    The class [SecretsStore] that cli.py imports from [.storage], the
    module secrets_cli/storage.py, is not among the sources: the methods
    the two commands call on the store are parameters.  So is the library
    that renders what [console.print] is given: it reads the text as
    markup, and raises [MarkupError] for a text it cannot read. *)
Module cli.

Inductive OutputFormat : Type := JSON | TEXT | TABLE | BASH.

(** [format == OutputFormat.JSON] *)
Definition is_json (format : OutputFormat) : bool :=
  match format with JSON => true | _ => false end.

(** The methods of [ctx.obj["store"]] that the commands call. *)
Record store : Type := Methods {
  store_get : string → M (option string);
  store_delete : string → M bool
}.

(** What a command can raise: [typer.Exit(code)], what the store raises,
    the [MarkupError] of [console.print], or the [Abort] of a prompt that
    is broken off. *)
Inductive raised : Type :=
| Exit (code : Z)
| Error (e : exn)
| MarkupError
| Abort.

(** The texts of [console.print], by the call that writes them. *)
Inductive message : Type :=
| NotFound (name : string)         (* Error: Secret '{name}' not found *)
| NameValue (name value : string)  (* {name}: {value} *)
| SecretExists (name : string)     (* (check mark) Secret '{name}' exists *)
| UsePrint                         (* Use --print to display value (insecure!) *)
| WillDelete (name : string)       (* Warning: This will permanently delete secret: {name} *)
| DeletionCancelled                (* Deletion cancelled *)
| SecretDeleted (name : string)    (* (check mark) Secret '{name}' deleted *)
| ErrorText (text : string).       (* Error: {e}, in bold red *)

Inductive output : Type :=
| PrintJson (doc : json)           (* print(json.dumps(doc, indent=2)) *)
| Console (msg : message)          (* console.print(...) *)
| ConfirmPrompt.                   (* the prompt of typer.confirm("Are you sure?") *)

Definition command : Type := P raised output unit.

(** [str(e)] for the exceptions that [except (ValueError, OSError)]
    catches.  [JSONDecodeError] is a [ValueError]; its text is not
    modelled. *)
Definition caught (e : exn) : option string :=
  match e with
  | ValueError msg => Some msg
  | OSError msg => Some msg
  | JSONDecodeError => Some ""
  | AttributeError | KeyringError => None
  end.

Section commands.

(** Whether the console can render a text; if not, [console.print] raises. *)
Context (renders : message → bool).

Definition console_print (msg : message) : command :=
  if renders msg then print (Console msg) else throw MarkupError.

(** The [except (ValueError, OSError) as e] clause the commands share:
    print the error as JSON or as text, then [raise typer.Exit(1)]. *)
Definition on_error (error : string → json) (format : OutputFormat)
    (r : raised) : option command :=
  match r with
  | Error e =>
      match caught e with
      | Some text =>
          Some ((if is_json format then print (PrintJson (error text))
                 else console_print (ErrorText text)) ;;>
                throw (Exit 1))
      | None => None
      end
  | _ => None
  end.

Definition get (st : store) (name : string) (print_value : bool)
    (format : OutputFormat) (reveal : bool) : command :=
  except
    (value <~ call Error (store_get st name) ;;
     match value with
     | None =>
         (if is_json format
          then print (PrintJson (JObj
                 [("success", JBool false);
                  ("error", JStr ("Secret '" +:+ name +:+ "' not found"));
                  ("name", JStr name)]))
          else console_print (NotFound name)) ;;>
         throw (Exit 1)
     | Some value =>
         let include_value := print_value || (reveal && is_json format) in
         let result :=
           [("success", JBool true); ("name", JStr name); ("exists", JBool true)]
           ++ (if include_value then [("value", JStr value)] else []) in
         if is_json format then print (PrintJson (JObj result))
         else if print_value then console_print (NameValue name value)
         else console_print (SecretExists name) ;;> console_print UsePrint
     end)
    (on_error (λ text, JObj [("success", JBool false); ("error", JStr text);
                             ("name", JStr name)]) format).

(** [answer] is what [typer.confirm] returns, [None] when it raises
    [Abort] instead. *)
Definition delete (st : store) (name : string) (yes : bool)
    (format : OutputFormat) (answer : option bool) : command :=
  except
    (found <~ call Error (store_get st name) ;;
     (match found with
      | None =>
          (if is_json format
           then print (PrintJson (JObj
                  [("error", JStr ("Secret '" +:+ name +:+ "' not found"))]))
           else console_print (NotFound name)) ;;>
          throw (Exit 1)
      | Some _ => retP tt
      end) ;;>
     (if negb yes then
        if is_json format
        then print (PrintJson (JObj
               [("error",
                 JStr "Confirmation required. Use --yes to confirm deletion")])) ;;>
             throw (Exit 1)
        else console_print (WillDelete name) ;;>
             print ConfirmPrompt ;;>
             match answer with
             | None => throw Abort
             | Some confirm =>
                 if negb confirm
                 then console_print DeletionCancelled ;;> throw (Exit 0)
                 else retP tt
             end
      else retP tt) ;;>
     call Error (store_delete st name) ;;>
     if is_json format
     then print (PrintJson (JObj
            [("success", JBool true); ("name", JStr name);
             ("deleted", JBool true)]))
     else console_print (SecretDeleted name))
    (on_error (λ text, JObj [("error", JStr text); ("name", JStr name)]) format).

End commands.

End cli.

(** * The vocabulary of the statements

    The outcome of the calls on the index file as functions of the world,
    the invariant of the index, and the worlds the statements are run in. *)

Import SecretsStore.

(** No name is listed twice. *)
Definition index_unique (names : list json) : Prop :=
  ∀ name, list_count name names ≤ 1.

(** What the [try] block of [_load_names] makes of a text it could read. *)
Definition decode_names (txt : text) : result (list json) :=
  match txt with
  | Unparsable _ => Raise (ValueError "Invalid JSON in metadata file")
  | Parsed (JObj ms) =>
      match dict_get "secrets" ms with
      | Some (JObj ks) => Ok (JStr <$> dict_keys ks)
      | Some (JArr items) => Ok items
      | _ => Ok []
      end
  | Parsed _ => Raise AttributeError
  end.

(** What [_load_names] returns in a world. *)
Definition load_result (self : t) (w : world) : result (list json) :=
  match files w !! metadata_file self with
  | None => Ok []
  | Some txt =>
      if read_denied (env w) then Raise (OSError "Failed to read metadata file")
      else decode_names txt
  end.

(** The world it leaves: the same, with its calls added to the trace. *)
Definition load_world (self : t) (w : world) : world :=
  match files w !! metadata_file self with
  | None => log (FsExists (metadata_file self)) w
  | Some _ => log (FsRead (metadata_file self)) (log (FsExists (metadata_file self)) w)
  end.

(** Two worlds that differ in the trace of calls only. *)
Definition same_state (w w' : world) : Prop :=
  keyring_db w' = keyring_db w ∧ dirs w' = dirs w ∧
  files w' = files w ∧ env w' = env w.

(** The world after a call of [_save_names], by what the platform refuses. *)
Definition save_world (self : t) (names : list json) (w : world) : world :=
  let mf := metadata_file self in
  let w1 := log (FsMkdir (base_dir self) mode_0o700) w in
  if mkdir_denied (env w) then w1
  else
    let w2 := log (FsWrite mf (json_dumps (index_doc names)))
                (with_dirs ({[base_dir self]} ∪ dirs w) w1) in
    if open_denied (env w) then w2
    else if write_broken (env w)
    then with_files (<[mf := Unparsable ""]> (files w)) w2
    else log (FsChmod mf mode_0o600)
           (with_files (<[mf := json_dumps (index_doc names)]>
                          (<[mf := Unparsable ""]> (files w))) w2).

(** What [_save_names] returns in a world. *)
Definition save_result (w : world) : result unit :=
  if mkdir_denied (env w) then Raise (OSError "Failed to create directory")
  else if open_denied (env w) || write_broken (env w) || chmod_denied (env w)
  then Raise (OSError "Failed to write metadata file")
  else Ok tt.

(** The world in which [set] consults the index: the keyring is written. *)
Definition set_world (self : t) (name value : string) (w : world) : world :=
  load_world self
    (with_keyring (<[(service_name self, strip name) := value]> (keyring_db w))
       (log (KrSet (service_name self) (strip name) value) w)).

(** The platform lets [_save_names] through. *)
Definition disk_ok (w : world) : Prop :=
  mkdir_denied (env w) = false ∧ open_denied (env w) = false ∧
  write_broken (env w) = false ∧ chmod_denied (env w) = false.

(** The invariant of the index: what [list_names] returns lists no name
    twice. *)
Definition index_inv (self : t) (w : world) : Prop :=
  ∀ names, fst (list_names self w) = Ok names → index_unique names.

(** The store of the tests. *)
Definition demo_store : t :=
  Store "test-service" "/tmp/.secrets" "/tmp/.secrets/metadata_test-service.json".

(** Nothing stored, nothing on disk, a platform that refuses nothing. *)
Definition empty_world : world := World ∅ ∅ ∅ no_faults [].

(** The world after running [m]. *)
Definition after {A} (m : M A) (w : world) : world := snd (m w).

(** The world in which [delete] consults the index: the keyring entry is gone. *)
Definition delete_world (self : t) (name : string) (w : world) : world :=
  load_world self
    (with_keyring (base.delete (service_name self, strip name) (keyring_db w))
       (log (KrDelete (service_name self) (strip name))
          (log (KrGet (service_name self) (strip name)) w))).

(** A platform on which writes fail once the file is open. *)
Definition disk_full : faults := Faults false false false false true false.

(** A world that holds the index [["A"]] of [demo_store] on such a platform. *)
Definition disk_full_world : world :=
  World ∅ {["/tmp/.secrets"]}
    {[metadata_file demo_store := json_dumps (index_doc [JStr "A"])]}
    disk_full [].

(** What [export_env] keeps of the value the keyring holds for a name. *)
Definition exported (self : t) (db : gmap (string * string) string)
    (name : string) : option string :=
  match db !! (service_name self, strip name) with
  | Some value => if String.eqb value "" then None else Some value
  | None => None
  end.

(** An element of the index that [get] accepts as a name. *)
Definition proper_name (j : json) : Prop :=
  ∃ name, j = JStr name ∧ blank name = false.

(** A world in which the index lists [A] and [B] and the keyring holds a
    value for [A] only. *)
Definition half_stored_world : world :=
  World {[("test-service", "A") := "1"]} {["/tmp/.secrets"]}
    {[metadata_file demo_store := json_dumps (index_doc [JStr "A"; JStr "B"])]}
    no_faults [].

(** A world in which the keyring holds the empty string for the listed [A]. *)
Definition empty_value_world : world :=
  World {[("test-service", "A") := ""]} {["/tmp/.secrets"]}
    {[metadata_file demo_store := json_dumps (index_doc [JStr "A"])]}
    no_faults [].

(** A call that, if it writes a file, writes the index of [self] in the
    sequence form [{"secrets": [...]}]. *)
Definition index_write (self : t) (e : event) : Prop :=
  match e with
  | FsWrite p d =>
      p = metadata_file self ∧ ∃ names, d = Parsed (JObj [("secrets", JArr names)])
  | _ => True
  end.

(** A computation all of whose calls are of that kind. *)
Definition writes_index_only {A} (self : t) (m : M A) : Prop :=
  ∀ w, ∃ evs, trace (after m w) = trace w ++ evs ∧ Forall (index_write self) evs.

(** The legacy file [{"secrets": {"KEY1": {}, "KEY2": {}}}]. *)
Definition legacy_world : world :=
  with_files
    {[metadata_file demo_store :=
        Parsed (JObj [("secrets", JObj [("KEY1", JObj []); ("KEY2", JObj [])])])]}
    empty_world.

(** The world [half_stored_world] with its index file replaced by text
    that is no JSON, on a platform that refuses every file system call. *)
Definition garbled_world : world :=
  World {[("test-service", "A") := "1"]} ∅
    {[metadata_file demo_store := Unparsable "not json{"]}
    (Faults false true true true true true) [].

(** A computation that changes nothing but the trace of calls. *)
Definition preserves_state {A} (m : M A) : Prop :=
  ∀ w, same_state w (after m w).

(** What [get] raises for an element of the index it does not accept:
    [ValueError] for a falsy value or a blank string, [AttributeError] for
    a truthy value that has no [strip]. *)
Definition entry_error (n : json) : option exn :=
  match n with
  | JStr name =>
      if blank name then Some (ValueError "Secret name cannot be empty") else None
  | _ => Some (if truthy n then AttributeError
               else ValueError "Secret name cannot be empty")
  end.

(** The index of [demo_store] lists [A], then the number 7, then [B]. *)
Definition mixed_index_world : world :=
  World {[("test-service", "A") := "1"]} {["/tmp/.secrets"]}
    {[metadata_file demo_store :=
        json_dumps (index_doc [JStr "A"; JNum 7; JStr "B"])]}
    no_faults [].

(** How a program ends, what it has printed and the world it leaves, when
    run in [w] with nothing printed yet. *)
Definition ending {E O A} (m : P E O A) (w : world) : outcome E A :=
  fst (m (w, [])).

Definition printed {E O A} (m : P E O A) (w : world) : list O :=
  snd (snd (m (w, []))).

Definition world_after {E O A} (m : P E O A) (w : world) : world :=
  fst (snd (m (w, []))).

(** The stores of the two scripts. *)
Definition ai_keys_store (home : string) : t :=
  Store "ai-keys" (Path.join home ".secrets")
    (Path.join (Path.join home ".secrets") "metadata_ai-keys.json").

Definition ai_secrets_store (home : string) : t :=
  Store "ai-secrets" (Path.join home ".secrets")
    (Path.join (Path.join home ".secrets") "metadata_ai-secrets.json").

(** A world with the old namespace in use: [A] has a value, [B] is only
    listed, and [other-app] keeps a secret of its own in the keyring. *)
Definition old_service_world : world :=
  World {[("ai-keys", "A") := "1"; ("other-app", "A") := "x"]} ∅
    {[metadata_file (ai_keys_store "/home/u") :=
        json_dumps (index_doc [JStr "A"; JStr "B"])]}
    no_faults [].

(** * Properties *)

(** ** Lists of names *)

Section names_lists.
Implicit Types (name : string) (j : json) (names : list json).

Lemma eq_str_true name j : eq_str name j = true ↔ j = JStr name.
Proof.
  destruct j; simpl; try (split; [discriminate | intros [=]]).
  rewrite String.eqb_eq. split; [intros -> | intros [=]]; done.
Qed.

Lemma eq_str_refl name : eq_str name (JStr name) = true.
Proof. by apply eq_str_true. Qed.

Lemma eq_str_other name name' :
  name ≠ name' → eq_str name (JStr name') = false.
Proof.
  intros Hne. destruct (eq_str name (JStr name')) eqn:E; [|done].
  apply eq_str_true in E. congruence.
Qed.

Lemma contains_elem name names :
  contains name names = true ↔ JStr name ∈ names.
Proof.
  unfold contains. induction names as [|j names IH]; simpl.
  - split; [discriminate | by intros ?%elem_of_nil].
  - rewrite orb_true_iff, IH, elem_of_cons, eq_str_true. naive_solver.
Qed.

Lemma contains_count name names :
  contains name names = false ↔ list_count name names = 0.
Proof.
  unfold contains. induction names as [|j names IH]; simpl; [done|].
  destruct (eq_str name j); simpl; [split; [discriminate | lia] | done].
Qed.

Lemma contains_count_pos name names :
  contains name names = true ↔ 0 < list_count name names.
Proof.
  destruct (contains name names) eqn:E.
  - split; [intros _ | done].
    destruct (list_count name names) eqn:C; [|lia].
    apply contains_count in C. congruence.
  - apply contains_count in E. rewrite E. split; [discriminate | lia].
Qed.

Lemma list_count_app name names names' :
  list_count name (names ++ names') =
  list_count name names + list_count name names'.
Proof. induction names as [|j names IH]; simpl; [done | lia]. Qed.

Lemma list_count_append name name' names :
  list_count name (names ++ [JStr name']) =
  list_count name names + (if String.eqb name' name then 1 else 0).
Proof. rewrite list_count_app. simpl. lia. Qed.

Lemma list_count_remove name names :
  contains name names = true →
  list_count name (list_remove name names) = list_count name names - 1.
Proof.
  unfold contains. induction names as [|j names IH]; simpl; [discriminate|].
  destruct (eq_str name j) eqn:E; simpl; [lia|].
  rewrite E. simpl. done.
Qed.

Lemma list_count_remove_other name name' names :
  name ≠ name' →
  list_count name' (list_remove name names) = list_count name' names.
Proof.
  intros Hne. induction names as [|j names IH]; simpl; [done|].
  destruct (eq_str name j) eqn:E; simpl; [|by rewrite IH].
  apply eq_str_true in E as ->. by rewrite eq_str_other.
Qed.

Lemma list_remove_subseteq name names : list_remove name names ⊆ names.
Proof.
  induction names as [|j names IH]; simpl; [done|].
  destruct (eq_str name j); set_solver.
Qed.
End names_lists.

Lemma index_unique_nil : index_unique [].
Proof. intros name. simpl. lia. Qed.

Lemma index_unique_append name names :
  index_unique names → contains name names = false →
  index_unique (names ++ [JStr name]).
Proof.
  intros Hu Hc name'. rewrite list_count_append.
  destruct (String.eqb name name') eqn:E.
  - apply String.eqb_eq in E as <-. apply contains_count in Hc. lia.
  - specialize (Hu name'). lia.
Qed.

Lemma index_unique_remove name names :
  index_unique names → index_unique (list_remove name names).
Proof.
  intros Hu name'. specialize (Hu name').
  destruct (decide (name = name')) as [<-|Hne].
  - destruct (contains name names) eqn:E.
    + rewrite list_count_remove by done. lia.
    + assert (list_remove name names = names) as ->; [|done].
      clear Hu. unfold contains in E.
      induction names as [|j names IH]; simpl in *; [done|].
      apply orb_false_iff in E as [-> E]. by rewrite IH.
  - by rewrite list_count_remove_other.
Qed.

(** ** Python dictionaries *)

Lemma dict_keys_elem k (ms : list (string * json)) :
  k ∈ dict_keys ms ↔ k ∈ ms.*1.
Proof.
  induction ms as [|[k' v] ms IH]; simpl; [done|].
  rewrite !elem_of_cons, list_elem_of_filter, IH.
  destruct (decide (k = k')); naive_solver.
Qed.

Lemma dict_keys_NoDup (ms : list (string * json)) : NoDup (dict_keys ms).
Proof.
  induction ms as [|[k v] ms IH]; simpl; [constructor|].
  constructor; [|by apply NoDup_filter].
  rewrite list_elem_of_filter. naive_solver.
Qed.

Lemma list_count_strings name (ks : list string) :
  NoDup ks → list_count name (JStr <$> ks) ≤ 1.
Proof.
  induction 1 as [|k ks Hk _ IH]; csimpl; [lia|].
  destruct (String.eqb k name) eqn:E; [|lia].
  apply String.eqb_eq in E as ->.
  assert (list_count name (JStr <$> ks) = 0); [|lia].
  apply contains_count. destruct (contains name (JStr <$> ks)) eqn:C; [|done].
  apply contains_elem, list_elem_of_fmap in C as (k' & [= ->] & ?). done.
Qed.

(** ** [strip] *)

Lemma rstrip_idemp s : rstrip (rstrip s) = rstrip s.
Proof.
  induction s as [|c r IH]; simpl; [done|].
  destruct (rstrip r) as [|c' r'] eqn:E.
  - destruct (is_space c) eqn:Hc; simpl; [done | by rewrite Hc].
  - simpl in *. rewrite IH. done.
Qed.

Lemma lstrip_rstrip s : lstrip (rstrip (lstrip s)) = rstrip (lstrip s).
Proof.
  induction s as [|c r IH]; simpl; [done|].
  destruct (is_space c) eqn:Hc; [done|]. simpl.
  destruct (rstrip r); rewrite ?Hc; simpl; by rewrite Hc.
Qed.

Lemma strip_idemp s : strip (strip s) = strip s.
Proof. unfold strip. by rewrite lstrip_rstrip, rstrip_idemp. Qed.

Lemma blank_strip s : blank s = String.eqb (strip s) "".
Proof.
  unfold blank. destruct (String.eqb_spec s "") as [->|]; [done|].
  by destruct (String.eqb (strip s) "").
Qed.

Lemma blank_strip_idemp s : blank (strip s) = blank s.
Proof. by rewrite !blank_strip, strip_idemp. Qed.

(** ** The index file, read and written *)

Lemma load_names_eq self w :
  _load_names self w = (load_result self w, load_world self w).
Proof.
  unfold _load_names, load_result, load_world, bind, try_except, lift,
    Path.exists_, Path.read_text, ret. simpl.
  destruct (files w !! metadata_file self) as [txt|] eqn:E; simpl; [|done].
  rewrite E. destruct (read_denied (env w)); [done|].
  destruct txt as [raw|[| | | | |ms]]; simpl; try done.
  destruct (dict_get "secrets" ms) as [[]|]; done.
Qed.

Lemma same_state_refl w : same_state w w.
Proof. done. Qed.

Lemma same_state_trans w1 w2 w3 :
  same_state w1 w2 → same_state w2 w3 → same_state w1 w3.
Proof. unfold same_state. intros (-> & -> & -> & ->) (-> & -> & -> & ->). done. Qed.

Lemma same_state_log e w : same_state w (log e w).
Proof. done. Qed.

Lemma load_world_same self w : same_state w (load_world self w).
Proof. unfold load_world. by destruct (files w !! metadata_file self). Qed.

Lemma load_world_keyring self w : keyring_db (load_world self w) = keyring_db w.
Proof. apply load_world_same. Qed.

Lemma load_world_files self w : files (load_world self w) = files w.
Proof. apply load_world_same. Qed.

Lemma load_world_env self w : env (load_world self w) = env w.
Proof. apply load_world_same. Qed.

Lemma load_result_same self w w' :
  files w' = files w → env w' = env w →
  load_result self w' = load_result self w.
Proof. unfold load_result. by intros -> ->. Qed.

Lemma save_names_eq self names w :
  _save_names self names w = (save_result w, save_world self names w).
Proof.
  unfold _save_names, _setup_dirs, save_result, save_world, bind, try_except,
    Path.mkdir, Path.write_text, Path.chmod. simpl.
  destruct (mkdir_denied (env w)); simpl; [done|].
  destruct (open_denied (env w)); simpl; [done|].
  destruct (write_broken (env w)); simpl; [done|].
  destruct (chmod_denied (env w)); done.
Qed.

Lemma save_result_ok w :
  save_result w = Ok tt →
  mkdir_denied (env w) = false ∧ open_denied (env w) = false ∧
  write_broken (env w) = false ∧ chmod_denied (env w) = false.
Proof.
  unfold save_result.
  destruct (mkdir_denied (env w)), (open_denied (env w)),
    (write_broken (env w)), (chmod_denied (env w)); simpl; by intros.
Qed.

Lemma save_world_keyring self names w :
  keyring_db (save_world self names w) = keyring_db w.
Proof.
  unfold save_world.
  by destruct (mkdir_denied (env w)), (open_denied (env w)), (write_broken (env w)).
Qed.

Lemma save_world_env self names w : env (save_world self names w) = env w.
Proof.
  unfold save_world.
  by destruct (mkdir_denied (env w)), (open_denied (env w)), (write_broken (env w)).
Qed.

Lemma save_world_files_ok self names w :
  save_result w = Ok tt →
  files (save_world self names w) =
  <[metadata_file self := Parsed (index_doc names)]> (files w).
Proof.
  intros (Hm & Ho & Hw & _)%save_result_ok. unfold save_world.
  rewrite Hm, Ho, Hw. simpl. by rewrite insert_insert_eq.
Qed.

(** Reading back what was just saved. *)
Lemma load_after_save self names w :
  save_result w = Ok tt → read_denied (env w) = false →
  load_result self (save_world self names w) = Ok names.
Proof.
  intros Hs Hr. unfold load_result.
  rewrite save_world_files_ok, save_world_env, lookup_insert_eq, Hr by done.
  done.
Qed.

(** ** [get], [set] and [delete] unfolded *)

Lemma get_eq self name w :
  blank name = false →
  get self name w =
  (if keyring_down (env w)
   then Raise (OSError "Failed to retrieve secret from keyring")
   else Ok (keyring_db w !! (service_name self, strip name)),
   log (KrGet (service_name self) (strip name)) w).
Proof.
  intros Hb. unfold get, try_except, keyring.get_password. rewrite Hb. simpl.
  by destruct (keyring_down (env w)).
Qed.

Lemma get_blank self name w :
  blank name = true →
  get self name w = (Raise (ValueError "Secret name cannot be empty"), w).
Proof. intros Hb. unfold get. by rewrite Hb. Qed.

Lemma set_ok_inv self name value w w' :
  set self name value w = (Ok tt, w') →
  blank name = false ∧ value ≠ "" ∧ keyring_down (env w) = false ∧
  ∃ names, load_result self w = Ok names ∧
    if contains name names then w' = set_world self name value w
    else save_result w = Ok tt ∧
         w' = save_world self (names ++ [JStr name]) (set_world self name value w).
Proof.
  unfold set, set_world.
  destruct (blank name); [by intros [=]|].
  destruct (String.eqb_spec value ""); [by intros [=]|].
  unfold bind, try_except, keyring.set_password. simpl.
  destruct (keyring_down (env w)) eqn:Hk; [by intros [=]|].
  rewrite load_names_eq.
  match goal with |- context [load_result self ?w1] =>
    rewrite (load_result_same self w w1) by done; set (w2 := load_world self w1)
  end.
  destruct (load_result self w) as [names|e] eqn:Hl; [|by intros [=]].
  intros H. do 3 (split; [done|]). exists names. split; [done|].
  destruct (contains name names); simpl in H.
  - by injection H as <-.
  - rewrite save_names_eq in H. injection H as Hs <-.
    split; [|done]. revert Hs. unfold save_result.
    assert (env w2 = env w) as ->; [|done].
    subst w2. by rewrite load_world_env.
Qed.

Lemma set_world_keyring self name value w :
  keyring_db (set_world self name value w) =
  <[(service_name self, strip name) := value]> (keyring_db w).
Proof. unfold set_world. by rewrite load_world_keyring. Qed.

Lemma set_world_files self name value w :
  files (set_world self name value w) = files w.
Proof. unfold set_world. by rewrite load_world_files. Qed.

Lemma set_world_env self name value w :
  env (set_world self name value w) = env w.
Proof. unfold set_world. by rewrite load_world_env. Qed.

Lemma save_result_disk_ok w : disk_ok w → save_result w = Ok tt.
Proof. unfold save_result. by intros (-> & -> & -> & ->). Qed.

Lemma save_result_same w w' : env w' = env w → save_result w' = save_result w.
Proof. unfold save_result. by intros ->. Qed.

Lemma set_eq self name value w :
  blank name = false → value ≠ "" → keyring_down (env w) = false →
  set self name value w =
  match load_result self w with
  | Ok names =>
      if contains name names then (Ok tt, set_world self name value w)
      else (save_result w,
            save_world self (names ++ [JStr name]) (set_world self name value w))
  | Raise e => (Raise e, set_world self name value w)
  end.
Proof.
  intros Hb Hv Hk. unfold set, set_world. rewrite Hb.
  destruct (String.eqb_spec value ""); [done|].
  unfold bind, try_except, keyring.set_password. simpl. rewrite Hk.
  rewrite load_names_eq.
  match goal with |- context [load_result self ?w1] =>
    rewrite (load_result_same self w w1) by done; set (w2 := load_world self w1)
  end.
  destruct (load_result self w) as [names|e]; [|done].
  destruct (contains name names); simpl; [done|].
  rewrite save_names_eq. f_equal. apply save_result_same.
  subst w2. by rewrite load_world_env.
Qed.

Lemma list_names_fst self w : fst (list_names self w) = load_result self w.
Proof. unfold list_names. by rewrite load_names_eq. Qed.

Lemma get_fst self name w :
  blank name = false → keyring_down (env w) = false →
  fst (get self name w) = Ok (keyring_db w !! (service_name self, strip name)).
Proof. intros Hb Hk. by rewrite get_eq, Hk. Qed.

(** [set] succeeds when its arguments are valid, the keyring answers, the
    index can be loaded and the platform lets the index be saved. *)
Lemma set_succeeds self name value w names :
  blank name = false → value ≠ "" → keyring_down (env w) = false →
  fst (list_names self w) = Ok names → disk_ok w →
  fst (set self name value w) = Ok tt.
Proof.
  intros Hb Hv Hk Hl Hd. rewrite list_names_fst in Hl.
  rewrite set_eq, Hl by done.
  destruct (contains name names); simpl; [done | by apply save_result_disk_ok].
Qed.

(** ** The invariant of the index: no name is listed twice *)

(** A namespace that was never written has an index without duplicates. *)
Lemma index_inv_fresh self w :
  files w !! metadata_file self = None → index_inv self w.
Proof.
  intros Hf names. rewrite list_names_fst. unfold load_result. rewrite Hf.
  intros [= <-]. apply index_unique_nil.
Qed.

(** So has an index in the legacy encoding, whatever its keys. *)
Lemma index_inv_legacy self w ms ks :
  files w !! metadata_file self = Some (Parsed (JObj ms)) →
  dict_get "secrets" ms = Some (JObj ks) →
  index_inv self w.
Proof.
  intros Hf Hs names. rewrite list_names_fst. unfold load_result. rewrite Hf.
  destruct (read_denied (env w)); [done|]. simpl. rewrite Hs.
  intros [= <-] name. apply list_count_strings, dict_keys_NoDup.
Qed.

(** [set] keeps the invariant. *)
Lemma index_inv_set self name value w w' :
  index_inv self w → set self name value w = (Ok tt, w') → index_inv self w'.
Proof.
  intros Hinv (_ & _ & _ & names & Hl & Hw)%set_ok_inv names'.
  rewrite list_names_fst. specialize (Hinv names).
  rewrite list_names_fst in Hinv. specialize (Hinv Hl).
  destruct (contains name names) eqn:Hc.
  - subst w'.
    rewrite (load_result_same self w)
      by (by rewrite ?set_world_files, ?set_world_env).
    rewrite Hl. by intros [= <-].
  - destruct Hw as [Hs ->]. unfold load_result.
    rewrite save_world_files_ok, lookup_insert_eq
      by (unfold save_result in *; by rewrite set_world_env).
    destruct (read_denied _); [done|]. simpl.
    intros [= <-]. by apply index_unique_append.
Qed.

(** C1: for a name that is not blank and a non-empty value, once
    [set(name, value)] has succeeded, [get(name)] returns [value] and
    [list_names()] holds [name] exactly once.  The index is that of a
    store whose file lists no name twice, as every file the store writes
    does ([index_inv_fresh], [index_inv_set], [index_inv_delete]). *)
Theorem set_then_get_and_list self name value w w' :
  blank name = false → value ≠ "" →
  index_inv self w → read_denied (env w) = false →
  set self name value w = (Ok tt, w') →
  fst (get self name w') = Ok (Some value) ∧
  ∃ names, fst (list_names self w') = Ok names ∧ list_count name names = 1.
Proof.
  intros Hb _ Hinv Hr (_ & _ & Hk & names & Hl & Hw)%set_ok_inv.
  specialize (Hinv names). rewrite list_names_fst in Hinv.
  specialize (Hinv Hl name).
  destruct (contains name names) eqn:Hc.
  - subst w'. split.
    + rewrite get_fst, set_world_keyring, lookup_insert_eq
        by (by rewrite ?set_world_env).
      done.
    + exists names. rewrite list_names_fst.
      rewrite (load_result_same self w)
        by (by rewrite ?set_world_files, ?set_world_env).
      split; [done|]. apply contains_count_pos in Hc. lia.
  - destruct Hw as [Hs ->]. split.
    + rewrite get_fst, save_world_keyring, set_world_keyring, lookup_insert_eq
        by (by rewrite ?save_world_env, ?set_world_env).
      done.
    + exists (names ++ [JStr name]). rewrite list_names_fst.
      rewrite load_after_save
        by (unfold save_result in *; by rewrite ?set_world_env).
      split; [done|]. rewrite list_count_append, String.eqb_refl.
      apply contains_count in Hc. lia.
Qed.

(** ** Running the methods in a given world *)

(** A computation whose result is known, as result and world. *)
Lemma run_pair {A} (m : M A) w r : fst (m w) = r → m w = (r, after m w).
Proof. intros <-. unfold after. by destruct (m w). Qed.

Lemma set_then_get_and_list_witness :
  let w' := after (set demo_store "TEST_KEY" "test_value") empty_world in
  fst (get demo_store "TEST_KEY" w') = Ok (Some "test_value") ∧
  ∃ names, fst (list_names demo_store w') = Ok names ∧
           list_count "TEST_KEY" names = 1.
Proof.
  apply (set_then_get_and_list demo_store "TEST_KEY" "test_value" empty_world).
  - reflexivity.
  - discriminate.
  - apply index_inv_fresh. reflexivity.
  - reflexivity.
  - apply (run_pair (set demo_store "TEST_KEY" "test_value") empty_world (Ok tt)).
    vm_compute. reflexivity.
Defined.

(** ** Validation *)

(** C2, as the code has it: a blank namespace is refused by the
    constructor, a blank name by [set], [get] and [delete], and an empty
    value by [set], each with [ValueError] and before any call to the
    keyring or the file system, so that the world, its trace of calls
    included, is the one before.  A value of whitespace only is no empty
    value, and is stored. *)
Theorem rejected_input_has_no_effect home self :
  (∀ service base, blank service = true →
     __init__ home service base = Raise (ValueError "service_name cannot be empty")) ∧
  (∀ name value w, blank name = true →
     set self name value w = (Raise (ValueError "Secret name cannot be empty"), w)) ∧
  (∀ name w, blank name = false →
     set self name "" w = (Raise (ValueError "Secret value cannot be empty"), w)) ∧
  (∀ name w, blank name = true →
     get self name w = (Raise (ValueError "Secret name cannot be empty"), w)) ∧
  (∀ name w, blank name = true →
     delete self name w = (Raise (ValueError "Secret name cannot be empty"), w)).
Proof.
  repeat split.
  - intros service base Hb. unfold __init__. by rewrite Hb.
  - intros name value w Hb. unfold set. by rewrite Hb.
  - intros name w Hb. unfold set. by rewrite Hb.
  - intros name w Hb. by apply get_blank.
  - intros name w Hb. unfold delete. by rewrite Hb.
Qed.

Lemma rejected_input_has_no_effect_witness :
  __init__ "/home/u" "   " None = Raise (ValueError "service_name cannot be empty") ∧
  set demo_store "   " "value" empty_world =
    (Raise (ValueError "Secret name cannot be empty"), empty_world) ∧
  set demo_store "KEY" "" empty_world =
    (Raise (ValueError "Secret value cannot be empty"), empty_world) ∧
  get demo_store "" empty_world =
    (Raise (ValueError "Secret name cannot be empty"), empty_world) ∧
  delete demo_store "" empty_world =
    (Raise (ValueError "Secret name cannot be empty"), empty_world).
Proof.
  destruct (rejected_input_has_no_effect "/home/u" demo_store)
    as (Hinit & Hset & Hval & Hget & Hdel).
  split; [apply Hinit; reflexivity|].
  split; [apply Hset; reflexivity|].
  split; [apply Hval; reflexivity|].
  split; [apply Hget; reflexivity|].
  apply Hdel; reflexivity.
Defined.

(** The claim C2 fails for a value of whitespace only: [set] stores it,
    in the keyring and in the index. *)
Lemma set_accepts_whitespace_value :
  blank "   " = true ∧
  fst (set demo_store "KEY" "   " empty_world) = Ok tt ∧
  keyring_db (after (set demo_store "KEY" "   ") empty_world)
    !! ("test-service", "KEY") = Some "   " ∧
  fst (list_names demo_store (after (set demo_store "KEY" "   ") empty_world))
    = Ok [JStr "KEY"].
Proof. vm_compute. repeat split. Qed.

(** ** Loading the index *)

(** C3, as the code has it: a file that is there, can be read and is not
    JSON makes [_load_names] raise [ValueError]; a JSON object without a
    [secrets] member, or with one that is neither a list nor a dict, is
    read as an empty list. *)
Theorem load_names_of_bad_file self w txt :
  files w !! metadata_file self = Some txt →
  read_denied (env w) = false →
  (∀ raw, txt = Unparsable raw →
     fst (_load_names self w) = Raise (ValueError "Invalid JSON in metadata file")) ∧
  (∀ ms, txt = Parsed (JObj ms) →
     match dict_get "secrets" ms with
     | None | Some JNull | Some (JBool _) | Some (JNum _) | Some (JStr _) =>
         fst (_load_names self w) = Ok []
     | Some (JArr items) => fst (_load_names self w) = Ok items
     | Some (JObj ks) => fst (_load_names self w) = Ok (JStr <$> dict_keys ks)
     end).
Proof.
  intros Hf Hr. rewrite load_names_eq. unfold load_result. rewrite Hf, Hr. simpl.
  split.
  - by intros raw ->.
  - intros ms ->. simpl. by destruct (dict_get "secrets" ms) as [[]|].
Qed.

Lemma load_names_of_bad_file_witness :
  let w := with_files {[metadata_file demo_store := Unparsable "not json{"]}
             empty_world in
  fst (_load_names demo_store w) = Raise (ValueError "Invalid JSON in metadata file").
Proof.
  intros w.
  apply (load_names_of_bad_file demo_store w (Unparsable "not json{"))
    with (raw := "not json{"); reflexivity.
Defined.

(** The claim C3 fails for the file [{"secrets": 42}], which is JSON but
    has neither form of the schema: it is read as an empty list. *)
Lemma load_names_wrong_schema_is_empty :
  let w := with_files
             {[metadata_file demo_store := Parsed (JObj [("secrets", JNum 42)])]}
             empty_world in
  fst (_load_names demo_store w) = Ok [].
Proof. vm_compute. reflexivity. Qed.

(** ** [delete] *)

Lemma load_result_ok self w names :
  load_result self w = Ok names →
  (files w !! metadata_file self = None ∧ names = []) ∨
  read_denied (env w) = false.
Proof.
  unfold load_result. destruct (files w !! metadata_file self).
  - destruct (read_denied (env w)); [done | by right].
  - intros [= <-]. by left.
Qed.

Lemma delete_world_keyring self name w :
  keyring_db (delete_world self name w) =
  base.delete (service_name self, strip name) (keyring_db w).
Proof. unfold delete_world. by rewrite load_world_keyring. Qed.

Lemma delete_world_files self name w : files (delete_world self name w) = files w.
Proof. unfold delete_world. by rewrite load_world_files. Qed.

Lemma delete_world_env self name w : env (delete_world self name w) = env w.
Proof. unfold delete_world. by rewrite load_world_env. Qed.

Lemma get_ok_inv self name w r :
  fst (get self name w) = Ok r →
  blank name = false ∧ keyring_down (env w) = false ∧
  r = keyring_db w !! (service_name self, strip name).
Proof.
  destruct (blank name) eqn:Hb; [by rewrite get_blank|].
  rewrite get_eq by done. simpl.
  destruct (keyring_down (env w)); [done|]. by intros [= <-].
Qed.

Lemma delete_absent self name w :
  fst (get self name w) = Ok None →
  delete self name w = (Ok false, log (KrGet (service_name self) (strip name)) w).
Proof.
  intros Hg. destruct (get_ok_inv _ _ _ _ Hg) as (Hb & Hk & Hn).
  unfold delete, bind. rewrite Hb, get_eq, Hk, <- Hn by done. done.
Qed.

Lemma delete_present_inv self name w v b w' :
  fst (get self name w) = Ok (Some v) →
  delete self name w = (Ok b, w') →
  b = true ∧
  ∃ names, load_result self w = Ok names ∧
    if contains name names
    then save_result w = Ok tt ∧
         w' = save_world self (list_remove name names) (delete_world self name w)
    else w' = delete_world self name w.
Proof.
  intros Hg. destruct (get_ok_inv _ _ _ _ Hg) as (Hb & Hk & Hn).
  unfold delete, delete_world, bind. rewrite Hb, get_eq, Hk, <- Hn by done.
  unfold try_except, keyring.delete_password. simpl. rewrite Hk.
  rewrite load_names_eq.
  match goal with |- context [load_result self ?w1] =>
    rewrite (load_result_same self w w1) by done; set (w2 := load_world self w1)
  end.
  destruct (load_result self w) as [names|e] eqn:Hl; [|by intros [=]].
  destruct (contains name names) eqn:Hc; unfold ret.
  - rewrite save_names_eq.
    assert (save_result w2 = save_result w) as ->.
    { unfold save_result. subst w2. by rewrite load_world_env. }
    destruct (save_result w) as [[]|]; simpl; [|by intros [=]].
    intros [= <- <-]. split; [done|]. exists names. by rewrite Hc.
  - simpl. intros [= <- <-]. split; [done|]. exists names. by rewrite Hc.
Qed.

(** [delete] of a name that has a value returns when the index can be
    loaded and the platform lets the index be saved. *)
Lemma delete_succeeds self name w v names :
  fst (get self name w) = Ok (Some v) →
  fst (list_names self w) = Ok names → disk_ok w →
  fst (delete self name w) = Ok true.
Proof.
  intros Hg Hl Hd. rewrite list_names_fst in Hl.
  destruct (get_ok_inv _ _ _ _ Hg) as (Hb & Hk & Hn).
  unfold delete, bind. rewrite Hb, get_eq, Hk, <- Hn by done.
  unfold try_except, keyring.delete_password. simpl. rewrite Hk.
  rewrite load_names_eq.
  match goal with |- context [load_result self ?w1] =>
    rewrite (load_result_same self w w1) by done; set (w2 := load_world self w1)
  end.
  rewrite Hl. destruct (contains name names); unfold ret; [|done].
  rewrite save_names_eq, (save_result_same w w2)
    by (subst w2; by rewrite load_world_env).
  by rewrite save_result_disk_ok.
Qed.

(** [delete] keeps the invariant of the index. *)
Lemma index_inv_delete self name w b w' :
  index_inv self w → delete self name w = (Ok b, w') → index_inv self w'.
Proof.
  intros Hinv Hd names'. rewrite list_names_fst.
  destruct (fst (get self name w)) as [[v|]|e] eqn:Hg.
  - apply (delete_present_inv _ _ _ _ _ _ Hg) in Hd as (_ & names & Hl & Hw).
    specialize (Hinv names). rewrite list_names_fst in Hinv.
    specialize (Hinv Hl).
    destruct (contains name names) eqn:Hc.
    + destruct Hw as [Hs ->]. unfold load_result.
      rewrite save_world_files_ok, lookup_insert_eq
        by (unfold save_result in *; by rewrite delete_world_env).
      destruct (read_denied _); [done|]. simpl.
      intros [= <-]. by apply index_unique_remove.
    + subst w'.
      rewrite (load_result_same self w)
        by (by rewrite ?delete_world_files, ?delete_world_env).
      rewrite Hl. by intros [= <-].
  - rewrite delete_absent in Hd by done. injection Hd as _ <-.
    rewrite (load_result_same self w) by done.
    rewrite <- list_names_fst. apply Hinv.
  - exfalso. revert Hd Hg. unfold delete, bind.
    destruct (blank name); [done|].
    destruct (get self name w) as [[r|e'] w1]; simpl; [done|]. done.
Qed.

(** C4: for a name that is not blank, when [get(name)] is absent
    [delete(name)] returns [False] and changes neither the keyring nor the
    files.  When [get(name)] is present, [delete(name)] returns [True]
    provided the index can be loaded and saved; and whenever it returns,
    it returns [True], [get(name)] is absent afterwards and
    [list_names()] does not hold [name].  The index is one that lists no
    name twice. *)
Theorem delete_absent_and_present self name w :
  blank name = false →
  (fst (get self name w) = Ok None →
     fst (delete self name w) = Ok false ∧
     same_state w (after (delete self name) w)) ∧
  (∀ v names,
     fst (get self name w) = Ok (Some v) →
     fst (list_names self w) = Ok names → disk_ok w →
     fst (delete self name w) = Ok true) ∧
  (∀ v b w',
     fst (get self name w) = Ok (Some v) → index_inv self w →
     delete self name w = (Ok b, w') →
     b = true ∧ fst (get self name w') = Ok None ∧
     ∃ names, fst (list_names self w') = Ok names ∧
              contains name names = false).
Proof.
  intros Hb. split; [|split].
  - intros Hg. unfold after. rewrite delete_absent by done. simpl.
    split; [done | apply same_state_log].
  - intros v names. apply delete_succeeds.
  - intros v b w' Hg Hinv Hd.
    destruct (get_ok_inv _ _ _ _ Hg) as (_ & Hk & _).
    apply (delete_present_inv _ _ _ _ _ _ Hg) in Hd as (-> & names & Hl & Hw).
    split; [done|].
    specialize (Hinv names). rewrite list_names_fst in Hinv.
    specialize (Hinv Hl name).
    destruct (contains name names) eqn:Hc.
    + destruct Hw as [Hs ->]. split.
      * rewrite get_fst, save_world_keyring, delete_world_keyring, lookup_delete_eq
          by (by rewrite ?save_world_env, ?delete_world_env).
        done.
      * exists (list_remove name names). rewrite list_names_fst.
        destruct (load_result_ok _ _ _ Hl) as [[_ ->]|Hr]; [done|].
        rewrite load_after_save
          by (unfold save_result in *; by rewrite ?delete_world_env).
        split; [done|]. apply contains_count.
        rewrite list_count_remove by done. lia.
    + subst w'. split.
      * rewrite get_fst, delete_world_keyring, lookup_delete_eq
          by (by rewrite ?delete_world_env).
        done.
      * exists names. rewrite list_names_fst.
        rewrite (load_result_same self w)
          by (by rewrite ?delete_world_files, ?delete_world_env).
        done.
Qed.

Lemma delete_absent_and_present_witness :
  (fst (delete demo_store "NONEXISTENT" empty_world) = Ok false ∧
   same_state empty_world (after (delete demo_store "NONEXISTENT") empty_world)) ∧
  (let w := after (set demo_store "DELETE_ME" "value") empty_world in
   let w' := after (delete demo_store "DELETE_ME") w in
   fst (delete demo_store "DELETE_ME" w) = Ok true ∧
   true = true ∧ fst (get demo_store "DELETE_ME" w') = Ok None ∧
   ∃ names, fst (list_names demo_store w') = Ok names ∧
            contains "DELETE_ME" names = false).
Proof.
  split.
  - apply (proj1 (delete_absent_and_present demo_store "NONEXISTENT"
                    empty_world eq_refl)).
    vm_compute. reflexivity.
  - intros w w'.
    destruct (delete_absent_and_present demo_store "DELETE_ME" w eq_refl)
      as (_ & Hreturns & Hthen).
    split.
    + apply (Hreturns "value" [JStr "DELETE_ME"]).
      * vm_compute. reflexivity.
      * vm_compute. reflexivity.
      * repeat split.
    + apply (Hthen "value" true w').
      * vm_compute. reflexivity.
      * apply (index_inv_set demo_store "DELETE_ME" "value" empty_world).
        -- apply index_inv_fresh. reflexivity.
        -- apply (run_pair (set demo_store "DELETE_ME" "value") empty_world (Ok tt)).
           vm_compute. reflexivity.
      * apply (run_pair (delete demo_store "DELETE_ME") w (Ok true)).
        vm_compute. reflexivity.
Defined.

(** ** Setting a name that is already listed *)

Lemma load_result_nonempty self w names :
  load_result self w = Ok names → names ≠ [] →
  is_Some (files w !! metadata_file self) ∧ read_denied (env w) = false.
Proof.
  unfold load_result. destruct (files w !! metadata_file self).
  - destruct (read_denied (env w)); [done | by eauto].
  - by intros [= <-].
Qed.

Lemma contains_nonempty name names : contains name names = true → names ≠ [].
Proof. by destruct names. Qed.

Lemma load_world_trace_present self w :
  is_Some (files w !! metadata_file self) →
  trace (load_world self w) =
  trace w ++ [FsExists (metadata_file self); FsRead (metadata_file self)].
Proof.
  intros [txt Hf]. unfold load_world. rewrite Hf. simpl.
  by rewrite <- app_assoc.
Qed.

(** [set] on a name the index already lists writes the keyring and reads
    the index, and calls nothing else: the index file is not rewritten. *)
Lemma set_present_no_rewrite self name value w w' names :
  fst (list_names self w) = Ok names → contains name names = true →
  set self name value w = (Ok tt, w') →
  files w' = files w ∧
  trace w' = trace w ++ [KrSet (service_name self) (strip name) value;
                          FsExists (metadata_file self);
                          FsRead (metadata_file self)].
Proof.
  rewrite list_names_fst.
  intros Hl Hc (_ & _ & _ & names' & Hl' & Hw)%set_ok_inv.
  rewrite Hl in Hl'. injection Hl' as <-. rewrite Hc in Hw. subst w'.
  split; [apply set_world_files|].
  unfold set_world. rewrite load_world_trace_present.
  - simpl. by rewrite <- app_assoc.
  - simpl. eapply load_result_nonempty; [done | by eapply contains_nonempty].
Qed.

(** After a successful [set] the index read back, if it can be read,
    lists the name. *)
Lemma set_lists_name self name value w w' names' :
  set self name value w = (Ok tt, w') →
  fst (list_names self w') = Ok names' →
  contains name names' = true.
Proof.
  intros (_ & _ & _ & names & Hl & Hw)%set_ok_inv. rewrite list_names_fst.
  destruct (contains name names) eqn:Hc.
  - subst w'.
    rewrite (load_result_same self w)
      by (by rewrite ?set_world_files, ?set_world_env).
    rewrite Hl. by intros [= <-].
  - destruct Hw as [Hs ->]. unfold load_result.
    rewrite save_world_files_ok, lookup_insert_eq
      by (unfold save_result in *; by rewrite set_world_env).
    destruct (read_denied _); [done|]. simpl. intros [= <-].
    apply contains_elem. set_solver.
Qed.

(** C5: [set(name, v1)] followed by [set(name, v2)], both succeeding on an
    index that lists no name twice, leaves [name] once in the index and
    [get(name)] equal to [v2]; the second [set] finds the name listed and
    neither changes the files nor calls the file system other than to
    look at the index and read it. *)
Theorem set_twice self name v1 v2 w w1 w2 :
  index_inv self w →
  set self name v1 w = (Ok tt, w1) →
  set self name v2 w1 = (Ok tt, w2) →
  fst (get self name w2) = Ok (Some v2) ∧
  (∃ names, fst (list_names self w2) = Ok names ∧ list_count name names = 1) ∧
  files w2 = files w1 ∧
  trace w2 = trace w1 ++ [KrSet (service_name self) (strip name) v2;
                          FsExists (metadata_file self);
                          FsRead (metadata_file self)].
Proof.
  intros Hinv H1 H2.
  pose proof (index_inv_set _ _ _ _ _ Hinv H1) as Hinv1.
  destruct (set_ok_inv _ _ _ _ _ H2) as (Hb & _ & Hk & names & Hl & Hw).
  rewrite <- list_names_fst in Hl.
  pose proof (set_lists_name _ _ _ _ _ _ H1 Hl) as Hc.
  destruct (set_present_no_rewrite _ _ _ _ _ _ Hl Hc H2) as [Hf Ht].
  rewrite Hc in Hw. subst w2. split; [|split; [|done]].
  - rewrite get_fst, set_world_keyring, lookup_insert_eq
      by (by rewrite ?set_world_env).
    done.
  - exists names. rewrite list_names_fst.
    rewrite (load_result_same self w1)
      by (by rewrite ?set_world_files, ?set_world_env).
    rewrite <- list_names_fst. split; [done|].
    specialize (Hinv1 names Hl name). apply contains_count_pos in Hc. lia.
Qed.

Lemma set_twice_witness :
  let w1 := after (set demo_store "KEY" "value1") empty_world in
  let w2 := after (set demo_store "KEY" "value2") w1 in
  fst (get demo_store "KEY" w2) = Ok (Some "value2") ∧
  (∃ names, fst (list_names demo_store w2) = Ok names ∧
            list_count "KEY" names = 1) ∧
  files w2 = files w1 ∧
  trace w2 = trace w1 ++ [KrSet "test-service" "KEY" "value2";
                          FsExists (metadata_file demo_store);
                          FsRead (metadata_file demo_store)].
Proof.
  intros w1 w2.
  apply (set_twice demo_store "KEY" "value1" "value2" empty_world w1 w2).
  - apply index_inv_fresh. reflexivity.
  - apply (run_pair (set demo_store "KEY" "value1") empty_world (Ok tt)).
    vm_compute. reflexivity.
  - apply (run_pair (set demo_store "KEY" "value2") w1 (Ok tt)).
    vm_compute. reflexivity.
Defined.

(** ** Saving the index *)

(** C6, as the code has it: [_save_names] overwrites the file in place.
    When it succeeds the file holds the document [{"secrets": names}].
    When [mkdir] or the opening of the file fails, it raises [OSError] and
    the files are as before.  When the write fails after the file was
    opened, it raises [OSError] and the file is left empty: the content it
    had is gone. *)
Theorem save_names_overwrites_in_place self names w :
  let r := fst (_save_names self names w) in
  let w' := after (_save_names self names) w in
  (r = Ok tt →
     files w' = <[metadata_file self := json_dumps (index_doc names)]> (files w)) ∧
  (mkdir_denied (env w) = true ∨ open_denied (env w) = true →
     (∃ msg, r = Raise (OSError msg)) ∧ files w' = files w) ∧
  (mkdir_denied (env w) = false → open_denied (env w) = false →
   write_broken (env w) = true →
     r = Raise (OSError "Failed to write metadata file") ∧
     files w' = <[metadata_file self := Unparsable ""]> (files w)).
Proof.
  unfold after. rewrite save_names_eq. simpl. split; [|split].
  - apply save_world_files_ok.
  - intros Hd. unfold save_result, save_world. split.
    + destruct Hd as [-> | ->]; [by eauto|].
      destruct (mkdir_denied (env w)); simpl; by eauto.
    + destruct Hd as [-> | ->]; [done|]. by destruct (mkdir_denied (env w)).
  - intros Hm Ho Hw. unfold save_result, save_world. by rewrite Hm, Ho, Hw.
Qed.

Lemma save_names_overwrites_in_place_witness :
  files (after (_save_names demo_store [JStr "A"]) empty_world) =
    <[metadata_file demo_store := json_dumps (index_doc [JStr "A"])]> ∅ ∧
  fst (_save_names demo_store [JStr "A"; JStr "B"] disk_full_world) =
    Raise (OSError "Failed to write metadata file") ∧
  files (after (_save_names demo_store [JStr "A"; JStr "B"]) disk_full_world) =
    <[metadata_file demo_store := Unparsable ""]> (files disk_full_world).
Proof.
  split.
  - apply (save_names_overwrites_in_place demo_store [JStr "A"] empty_world).
    reflexivity.
  - apply (save_names_overwrites_in_place demo_store [JStr "A"; JStr "B"]
             disk_full_world); reflexivity.
Defined.

(** The claim C6 fails when the write breaks off: the index that was on
    disk and could be read is replaced by a file that cannot. *)
Lemma save_names_failure_loses_index :
  fst (list_names demo_store disk_full_world) = Ok [JStr "A"] ∧
  fst (_save_names demo_store [JStr "A"; JStr "B"] disk_full_world) =
    Raise (OSError "Failed to write metadata file") ∧
  files (after (_save_names demo_store [JStr "A"; JStr "B"]) disk_full_world)
    !! metadata_file demo_store = Some (Unparsable "") ∧
  fst (list_names demo_store
         (after (_save_names demo_store [JStr "A"; JStr "B"]) disk_full_world)) =
    Raise (ValueError "Invalid JSON in metadata file").
Proof. vm_compute. repeat split. Qed.

(** ** [export_env] *)

#[local] Arguments contains : simpl never.

Lemma export_loop_spec self names :
  Forall proper_name names →
  ∀ result w, keyring_down (env w) = false →
  ∃ m w', export_loop self names result w = (Ok m, w') ∧
    same_state w w' ∧
    ∀ name, m !! name =
            match (if contains name names
                   then exported self (keyring_db w) name else None) with
            | Some value => Some value
            | None => result !! name
            end.
Proof.
  induction 1 as [|j names (name0 & -> & Hb) _ IH]; intros result w Hk.
  - exists result, w. done.
  - simpl. unfold bind. rewrite get_eq, Hk by done.
    set (w1 := log _ w).
    assert (∀ result', ∃ m w',
      export_loop self names result' w1 = (Ok m, w') ∧ same_state w w' ∧
      ∀ name, m !! name =
              match (if contains name names
                     then exported self (keyring_db w) name else None) with
              | Some value => Some value
              | None => result' !! name
              end) as Hrest.
    { intros result'. destruct (IH result' w1 Hk) as (m & w' & -> & Hs & Hm).
      exists m, w'. split; [done|]. split; [|done].
      by apply (same_state_trans _ w1); [apply same_state_log|]. }
    assert (∀ name, contains name (JStr name0 :: names) =
                    String.eqb name0 name || contains name names) as Hcons by done.
    destruct (keyring_db w !! (service_name self, strip name0)) as [value|] eqn:Hv.
    + destruct (String.eqb_spec value "") as [->|Hne]; simpl.
      * destruct (Hrest result) as (m & w' & -> & Hs & Hm).
        exists m, w'. do 2 (split; [done|]). intros name. rewrite Hm, Hcons.
        destruct (String.eqb_spec name0 name) as [<-|]; simpl; [|done].
        unfold exported. rewrite Hv. simpl.
        by destruct (contains name0 names).
      * destruct (Hrest (<[name0 := value]> result)) as (m & w' & -> & Hs & Hm).
        exists m, w'. do 2 (split; [done|]). intros name. rewrite Hm, Hcons.
        destruct (String.eqb_spec name0 name) as [<-|Hn]; simpl.
        -- unfold exported. rewrite Hv.
           destruct (String.eqb_spec value ""); [done|].
           destruct (contains name0 names); [done|]. by rewrite lookup_insert_eq.
        -- by rewrite lookup_insert_ne.
    + destruct (Hrest result) as (m & w' & -> & Hs & Hm).
      exists m, w'. do 2 (split; [done|]). intros name. rewrite Hm, Hcons.
      destruct (String.eqb_spec name0 name) as [<-|]; simpl; [|done].
      unfold exported. rewrite Hv. by destruct (contains name0 names).
Qed.

(** C7, as the code has it: when the index holds names that are not blank
    and the keyring answers, [export_env] returns the mapping of exactly
    those names of the index for which [get] returns a value that is not
    empty, each mapped to that value.  Names without a value, or with an
    empty one, are left out. *)
Theorem export_env_exact self w names :
  fst (list_names self w) = Ok names →
  Forall proper_name names →
  keyring_down (env w) = false →
  ∃ m, fst (export_env self w) = Ok m ∧
    ∀ name value,
      m !! name = Some value ↔
      JStr name ∈ names ∧ fst (get self name w) = Ok (Some value) ∧ value ≠ "".
Proof.
  rewrite list_names_fst. intros Hl Hn Hk.
  unfold export_env, bind. rewrite load_names_eq, Hl.
  destruct (export_loop_spec self names Hn ∅ (load_world self w))
    as (m & w' & -> & _ & Hm); [by rewrite load_world_env|].
  exists m. split; [done|]. intros name value.
  rewrite Hm, load_world_keyring, lookup_empty, <- contains_elem.
  destruct (contains name names) eqn:Hc.
  - assert (blank name = false) as Hb.
    { apply contains_elem in Hc.
      rewrite Forall_forall in Hn. by destruct (Hn _ Hc) as (? & [= <-] & ?). }
    rewrite get_fst by done. unfold exported.
    destruct (keyring_db w !! (service_name self, strip name)) as [v|]; [|naive_solver].
    destruct (String.eqb_spec v ""); naive_solver.
  - naive_solver.
Qed.

Lemma export_env_exact_witness :
  ∃ m, fst (export_env demo_store half_stored_world) = Ok m ∧
    ∀ name value,
      m !! name = Some value ↔
      JStr name ∈ [JStr "A"; JStr "B"] ∧
      fst (get demo_store name half_stored_world) = Ok (Some value) ∧ value ≠ "".
Proof.
  apply (export_env_exact demo_store half_stored_world [JStr "A"; JStr "B"]).
  - reflexivity.
  - repeat constructor; eexists; (split; [reflexivity | reflexivity]).
  - reflexivity.
Defined.

(** The claim C7 fails for a value that is present and empty: [get]
    returns it, [export_env] leaves the name out. *)
Lemma export_env_drops_empty_value :
  fst (list_names demo_store empty_value_world) = Ok [JStr "A"] ∧
  fst (get demo_store "A" empty_value_world) = Ok (Some "") ∧
  fst (export_env demo_store empty_value_world) = Ok ∅.
Proof. vm_compute. repeat split. Qed.

(** ** What is written to the index file *)

Section writes_index_only.
Context (self : t).

Lemma wio_ret {A} (a : A) : writes_index_only self (ret a).
Proof. intros w. exists []. by rewrite app_nil_r. Qed.

Lemma wio_raise {A} e : writes_index_only self (raise (A:=A) e).
Proof. intros w. exists []. by rewrite app_nil_r. Qed.

Lemma wio_lift {A} (r : result A) : writes_index_only self (lift r).
Proof. intros w. exists []. by rewrite app_nil_r. Qed.

Lemma wio_bind {A B} (m : M A) (k : A → M B) :
  writes_index_only self m → (∀ a, writes_index_only self (k a)) →
  writes_index_only self (bind m k).
Proof.
  intros Hm Hk w. destruct (Hm w) as (evs & Ht & Hevs).
  unfold after, bind in *. destruct (m w) as [[a|e] w1]; simpl in *.
  - destruct (Hk a w1) as (evs' & Ht' & Hevs'). exists (evs ++ evs').
    unfold after in Ht'. rewrite Ht', Ht, app_assoc. split; [done | by apply Forall_app].
  - by exists evs.
Qed.

Lemma wio_try {A} (m : M A) h :
  writes_index_only self m → writes_index_only self (try_except m h).
Proof.
  intros Hm w. destruct (Hm w) as (evs & Ht & Hevs). exists evs.
  unfold after, try_except in *. by destruct (m w) as [[a|e] w1].
Qed.

(** A primitive that logs one call. *)
Lemma wio_one {A} (m : M A) e :
  (∀ w, trace (after m w) = trace w ++ [e]) → index_write self e →
  writes_index_only self m.
Proof. intros Ht He w. exists [e]. split; [done | by constructor]. Qed.

Lemma wio_set_password s n v : writes_index_only self (keyring.set_password s n v).
Proof.
  apply (wio_one _ (KrSet s n v)); [|done]. intros w.
  unfold after, keyring.set_password. simpl. by destruct (keyring_down (env w)).
Qed.

Lemma wio_get_password s n : writes_index_only self (keyring.get_password s n).
Proof.
  apply (wio_one _ (KrGet s n)); [|done]. intros w.
  unfold after, keyring.get_password. simpl. by destruct (keyring_down (env w)).
Qed.

Lemma wio_delete_password s n : writes_index_only self (keyring.delete_password s n).
Proof.
  apply (wio_one _ (KrDelete s n)); [|done]. intros w.
  unfold after, keyring.delete_password. simpl. by destruct (keyring_down (env w)).
Qed.

Lemma wio_load_names : writes_index_only self (_load_names self).
Proof.
  intros w. unfold after. rewrite load_names_eq. simpl. unfold load_world.
  destruct (files w !! metadata_file self); simpl.
  - exists [FsExists (metadata_file self); FsRead (metadata_file self)].
    rewrite <- app_assoc. split; [done | by repeat constructor].
  - exists [FsExists (metadata_file self)]. split; [done | by repeat constructor].
Qed.

(** Every call of the list at hand is of the wanted kind. *)
Ltac each_event :=
  simpl; repeat (apply Forall_cons_2; [first [assumption | exact I] |]);
  apply Forall_nil_2.

Lemma wio_save_names names : writes_index_only self (_save_names self names).
Proof.
  intros w. unfold after. rewrite save_names_eq. simpl. unfold save_world.
  assert (index_write self (FsWrite (metadata_file self) (json_dumps (index_doc names))))
    as Hw by (split; eauto).
  destruct (mkdir_denied (env w)); simpl.
  { eexists. split; [reflexivity | each_event]. }
  destruct (open_denied (env w)); simpl.
  { eexists. rewrite <- app_assoc. split; [reflexivity | each_event]. }
  destruct (write_broken (env w)); simpl.
  { eexists. rewrite <- app_assoc. split; [reflexivity | each_event]. }
  eexists. rewrite <- !app_assoc. split; [reflexivity | each_event].
Qed.

Lemma wio_get name : writes_index_only self (get self name).
Proof.
  unfold get. destruct (blank name); [apply wio_raise|].
  apply wio_try, wio_get_password.
Qed.

Lemma wio_set name value : writes_index_only self (set self name value).
Proof.
  unfold set. destruct (blank name); [apply wio_raise|].
  destruct (String.eqb value ""); [apply wio_raise|].
  apply wio_bind; [apply wio_try, wio_set_password|]. intros _.
  apply wio_bind; [apply wio_load_names|]. intros names.
  destruct (negb (contains name names)); [apply wio_save_names | apply wio_ret].
Qed.

Lemma wio_delete name : writes_index_only self (delete self name).
Proof.
  unfold delete. destruct (blank name); [apply wio_raise|].
  apply wio_bind; [apply wio_get|]. intros [v|]; [|apply wio_ret].
  apply wio_bind; [apply wio_try, wio_delete_password|]. intros _.
  apply wio_bind; [apply wio_load_names|]. intros names.
  apply wio_bind; [|intros _; apply wio_ret].
  destruct (contains name names); [apply wio_save_names | apply wio_ret].
Qed.

End writes_index_only.

#[local] Instance JStr_inj : Inj (=) (=) JStr.
Proof. by intros s1 s2 [=]. Qed.

(** C8: an index file in the legacy encoding, where [secrets] is a dict,
    is read by [list_names] as the set of the keys of that dict, each key
    once, without an exception; and whatever [_save_names], [set] and
    [delete] write to a file is the index in the sequence form, a JSON
    object whose one member [secrets] is the list of the names.  A
    [_save_names] that succeeds has made that write: the call is in the
    trace and the file holds the document. *)
Theorem legacy_index_read_sequence_written self :
  (∀ w ms ks,
     files w !! metadata_file self = Some (Parsed (JObj ms)) →
     dict_get "secrets" ms = Some (JObj ks) →
     read_denied (env w) = false →
     ∃ names, fst (list_names self w) = Ok names ∧ NoDup names ∧
              ∀ j, j ∈ names ↔ ∃ k, j = JStr k ∧ k ∈ ks.*1) ∧
  (∀ names, writes_index_only self (_save_names self names)) ∧
  (∀ name value, writes_index_only self (set self name value)) ∧
  (∀ name, writes_index_only self (delete self name)) ∧
  (∀ names w,
     fst (_save_names self names w) = Ok tt →
     FsWrite (metadata_file self) (Parsed (JObj [("secrets", JArr names)]))
       ∈ trace (after (_save_names self names) w) ∧
     files (after (_save_names self names) w) !! metadata_file self =
       Some (Parsed (JObj [("secrets", JArr names)]))).
Proof.
  split; [|split; [|split; [|split]]].
  - intros w ms ks Hf Hs Hr. exists (JStr <$> dict_keys ks).
    rewrite list_names_fst. unfold load_result. rewrite Hf, Hr. simpl. rewrite Hs.
    split; [done|]. split.
    + apply (NoDup_fmap_2 _), dict_keys_NoDup.
    + intros j. rewrite list_elem_of_fmap. setoid_rewrite dict_keys_elem.
      naive_solver.
  - apply wio_save_names.
  - apply wio_set.
  - apply wio_delete.
  - intros names w. unfold after. rewrite save_names_eq. simpl. intros Hs.
    split; [|by rewrite save_world_files_ok, lookup_insert_eq].
    destruct (save_result_ok _ Hs) as (Hm & Ho & Hw & _).
    unfold save_world. rewrite Hm, Ho, Hw. simpl.
    rewrite !elem_of_app, !list_elem_of_singleton. by auto.
Qed.

Lemma legacy_index_read_sequence_written_witness :
  (∃ names, fst (list_names demo_store legacy_world) = Ok names ∧ NoDup names ∧
            ∀ j, j ∈ names ↔ ∃ k, j = JStr k ∧ k ∈ ["KEY1"; "KEY2"]) ∧
  FsWrite (metadata_file demo_store)
    (Parsed (JObj [("secrets", JArr [JStr "KEY1"; JStr "KEY2"])]))
    ∈ trace (after (_save_names demo_store [JStr "KEY1"; JStr "KEY2"]) legacy_world) ∧
  files (after (_save_names demo_store [JStr "KEY1"; JStr "KEY2"]) legacy_world)
    !! metadata_file demo_store =
    Some (Parsed (JObj [("secrets", JArr [JStr "KEY1"; JStr "KEY2"])])).
Proof.
  destruct (legacy_index_read_sequence_written demo_store)
    as (Hread & _ & _ & _ & Hsaved).
  split.
  - apply (Hread legacy_world
             [("secrets", JObj [("KEY1", JObj []); ("KEY2", JObj [])])]
             [("KEY1", JObj []); ("KEY2", JObj [])]); reflexivity.
  - apply (Hsaved [JStr "KEY1"; JStr "KEY2"] legacy_world). reflexivity.
Defined.

(** ** [get] and the index *)

(** C9: for a name that is not blank, [get] returns the same in two worlds
    whose keyrings hold the same and answer alike, whatever their files;
    its only call is the keyring's [get_password], and it changes no file. *)
Theorem get_reads_keyring_only self name w1 w2 :
  blank name = false →
  keyring_db w1 = keyring_db w2 →
  keyring_down (env w1) = keyring_down (env w2) →
  fst (get self name w1) = fst (get self name w2) ∧
  trace (after (get self name) w1) =
    trace w1 ++ [KrGet (service_name self) (strip name)] ∧
  files (after (get self name) w1) = files w1.
Proof.
  intros Hb Hdb Hk. unfold after. rewrite !get_eq by done. simpl.
  by rewrite Hdb, Hk.
Qed.

Lemma get_reads_keyring_only_witness :
  fst (get demo_store "A" half_stored_world) = fst (get demo_store "A" garbled_world) ∧
  trace (after (get demo_store "A") half_stored_world) =
    trace half_stored_world ++ [KrGet "test-service" "A"] ∧
  files (after (get demo_store "A") half_stored_world) = files half_stored_world.
Proof.
  apply (get_reads_keyring_only demo_store "A" half_stored_world garbled_world);
    reflexivity.
Defined.

(** ** Names with surrounding whitespace *)

(** The index after a successful [set]: the names it had, and [name]. *)
Lemma set_index_after self name value w w' :
  read_denied (env w) = false →
  set self name value w = (Ok tt, w') →
  ∃ names names',
    fst (list_names self w) = Ok names ∧
    fst (list_names self w') = Ok names' ∧
    ∀ j, j ∈ names' ↔ j ∈ names ∨ j = JStr name.
Proof.
  intros Hr (_ & _ & _ & names & Hl & Hw)%set_ok_inv.
  exists names. rewrite !list_names_fst.
  destruct (contains name names) eqn:Hc.
  - subst w'. exists names.
    rewrite (load_result_same self w (set_world self name value w))
      by (by rewrite ?set_world_files, ?set_world_env).
    do 2 (split; [done|]). apply contains_elem in Hc. naive_solver.
  - destruct Hw as [Hs ->]. exists (names ++ [JStr name]).
    rewrite load_after_save
      by (unfold save_result in *; by rewrite ?set_world_env).
    do 2 (split; [done|]). intros j. rewrite elem_of_app, list_elem_of_singleton.
    done.
Qed.

Lemma set_env self name value w r w' :
  set self name value w = (r, w') → env w' = env w.
Proof.
  unfold set. destruct (blank name); [by intros [= _ <-]|].
  destruct (String.eqb value ""); [by intros [= _ <-]|].
  unfold bind, try_except, keyring.set_password. simpl.
  destruct (keyring_down (env w)); [by intros [= _ <-]|].
  rewrite load_names_eq.
  match goal with |- context [load_world self ?w1] =>
    change (env w) with (env w1); set (w2 := load_world self w1);
    assert (env w2 = env w1) as <- by apply load_world_env
  end.
  destruct (load_result _ _) as [names|e]; [|by intros [= _ <-]].
  destruct (negb (contains name names)); [|by intros [= _ <-]].
  rewrite save_names_eq. intros [= _ <-]. apply save_world_env.
Qed.

(** C10: for a name with surrounding whitespace, a successful
    [set(name, value)] stores the value in the keyring under the stripped
    name, leaves the entry under the raw name as it was, and has the raw
    name in the index; [get(name)] is [get(name.strip())] in every world;
    and once the stripped name is set as well, the index lists both the
    raw and the stripped name, which are different entries. *)
Theorem set_keeps_raw_name_in_index self name value w w' :
  strip name ≠ name →
  read_denied (env w) = false →
  set self name value w = (Ok tt, w') →
  keyring_db w' !! (service_name self, strip name) = Some value ∧
  keyring_db w' !! (service_name self, name) =
    keyring_db w !! (service_name self, name) ∧
  (∃ names, fst (list_names self w') = Ok names ∧ JStr name ∈ names) ∧
  (∀ w0, get self name w0 = get self (strip name) w0) ∧
  (∀ value' w'',
     set self (strip name) value' w' = (Ok tt, w'') →
     ∃ names, fst (list_names self w'') = Ok names ∧
              JStr name ∈ names ∧ JStr (strip name) ∈ names ∧
              JStr name ≠ JStr (strip name)).
Proof.
  intros Hne Hr Hset.
  assert (keyring_db w' =
          <[(service_name self, strip name) := value]> (keyring_db w)) as Hdb.
  { destruct (set_ok_inv _ _ _ _ _ Hset) as (_ & _ & _ & names & _ & Hw).
    destruct (contains name names); [subst w'|destruct Hw as [_ ->]];
      by rewrite ?save_world_keyring, set_world_keyring. }
  destruct (set_index_after _ _ _ _ _ Hr Hset) as (names & names' & _ & Hl' & Hin).
  split; [|split; [|split; [|split]]].
  - by rewrite Hdb, lookup_insert_eq.
  - rewrite Hdb, lookup_insert_ne; [done|]. by intros [= ?].
  - exists names'. split; [done|]. apply Hin. by right.
  - intros w0. unfold get. by rewrite blank_strip_idemp, strip_idemp.
  - intros value' w'' Hset'.
    assert (read_denied (env w') = false) as Hr'
      by (by rewrite (set_env _ _ _ _ _ _ Hset)).
    destruct (set_index_after _ _ _ _ _ Hr' Hset')
      as (names1 & names'' & Hl1 & Hl'' & Hin').
    rewrite Hl' in Hl1. injection Hl1 as <-.
    exists names''. split; [done|]. split; [|split].
    + apply Hin'. left. apply Hin. by right.
    + apply Hin'. by right.
    + by intros [= ?].
Qed.

Lemma set_keeps_raw_name_in_index_witness :
  let w' := after (set demo_store " A" "1") empty_world in
  keyring_db w' !! ("test-service", "A") = Some "1" ∧
  keyring_db w' !! ("test-service", " A") = None ∧
  (∃ names, fst (list_names demo_store w') = Ok names ∧ JStr " A" ∈ names) ∧
  (∀ w0, get demo_store " A" w0 = get demo_store "A" w0) ∧
  (∀ value' w'',
     set demo_store "A" value' w' = (Ok tt, w'') →
     ∃ names, fst (list_names demo_store w'') = Ok names ∧
              JStr " A" ∈ names ∧ JStr "A" ∈ names ∧ JStr " A" ≠ JStr "A").
Proof.
  intros w'.
  apply (set_keeps_raw_name_in_index demo_store " A" "1" empty_world w').
  - discriminate.
  - reflexivity.
  - apply (run_pair (set demo_store " A" "1") empty_world (Ok tt)).
    vm_compute. reflexivity.
Defined.

(** * Further properties of the store *)

(** ** The index file: a round trip *)

(** X1: what [_save_names] has saved, [_load_names] loads: after a
    successful save of [names] from a world in which files can be read,
    the load returns [names], element for element; and saving again what
    was loaded from a file in the sequence form leaves the files as they
    are. *)
Theorem save_load_round_trip self names w :
  fst (_save_names self names w) = Ok tt →
  read_denied (env w) = false →
  fst (_load_names self (after (_save_names self names) w)) = Ok names ∧
  (files w !! metadata_file self = Some (json_dumps (index_doc names)) →
   fst (_load_names self w) = Ok names ∧
   files (after (_save_names self names) w) = files w).
Proof.
  unfold after. rewrite save_names_eq. simpl. intros Hs Hr.
  rewrite !load_names_eq. simpl. split.
  - by apply load_after_save.
  - intros Hf. split.
    + unfold load_result. by rewrite Hf, Hr.
    + rewrite save_world_files_ok by done. by apply insert_id.
Qed.

Lemma save_load_round_trip_witness :
  fst (_load_names demo_store
         (after (_save_names demo_store [JStr "B"; JStr "A"; JStr "B"]) empty_world))
  = Ok [JStr "B"; JStr "A"; JStr "B"].
Proof.
  apply (save_load_round_trip demo_store [JStr "B"; JStr "A"; JStr "B"] empty_world);
    reflexivity.
Defined.

(** ** Methods that only read *)

Section preserves_state.
Context (self : t).

Lemma ps_ret {A} (a : A) : preserves_state (ret a).
Proof. intros w. apply same_state_refl. Qed.

Lemma ps_raise {A} e : preserves_state (raise (A:=A) e).
Proof. intros w. apply same_state_refl. Qed.

Lemma ps_bind {A B} (m : M A) (k : A → M B) :
  preserves_state m → (∀ a, preserves_state (k a)) → preserves_state (bind m k).
Proof.
  intros Hm Hk w. specialize (Hm w). unfold after, bind in *.
  destruct (m w) as [[a|e] w1]; simpl in *; [|done].
  by apply (same_state_trans _ w1); [|apply Hk].
Qed.

Lemma ps_get name : preserves_state (get self name).
Proof.
  intros w. unfold after. destruct (blank name) eqn:Hb.
  - rewrite get_blank by done. apply same_state_refl.
  - rewrite get_eq by done. apply same_state_log.
Qed.

Lemma ps_load_names : preserves_state (_load_names self).
Proof. intros w. unfold after. rewrite load_names_eq. apply load_world_same. Qed.

Lemma ps_get_item n : preserves_state (get_item self n).
Proof.
  destruct n as [|b|z|name|items|ms]; simpl; try apply ps_get;
    repeat match goal with
           | |- context [if ?c then _ else _] => destruct c
           | |- context [match ?l with [] => _ | _ :: _ => _ end] => destruct l
           end; apply ps_raise.
Qed.

Lemma ps_export_loop names : ∀ result, preserves_state (export_loop self names result).
Proof.
  induction names as [|n names IH]; intros result; simpl; [apply ps_ret|].
  apply ps_bind; [apply ps_get_item|]. intros v.
  destruct n; try apply IH. destruct v as [value|]; [|apply IH].
  destruct (negb _); apply IH.
Qed.

End preserves_state.

(** X2: [get], [list_names] and [export_env] only read: whatever they
    return or raise, the keyring, the directories, the files and the
    platform are afterwards as before; only the trace of calls is longer. *)
Theorem reading_methods_change_nothing self :
  (∀ name, preserves_state (get self name)) ∧
  preserves_state (list_names self) ∧
  preserves_state (export_env self).
Proof.
  split; [apply ps_get|]. split; [apply ps_load_names|].
  apply ps_bind; [apply ps_load_names | intros names; apply ps_export_loop].
Qed.

(** ** [set] and [delete], case by case *)

Lemma set_cases self name value w :
  set self name value w =
  if blank name then (Raise (ValueError "Secret name cannot be empty"), w)
  else if String.eqb value ""
  then (Raise (ValueError "Secret value cannot be empty"), w)
  else if keyring_down (env w)
  then (Raise (OSError "Failed to store secret in keyring"),
        log (KrSet (service_name self) (strip name) value) w)
  else match load_result self w with
       | Ok names =>
           if contains name names then (Ok tt, set_world self name value w)
           else (save_result w,
                 save_world self (names ++ [JStr name])
                   (set_world self name value w))
       | Raise e => (Raise e, set_world self name value w)
       end.
Proof.
  destruct (blank name) eqn:Hb; [unfold set; by rewrite Hb|].
  destruct (String.eqb_spec value "") as [->|Hv]; [unfold set; by rewrite Hb|].
  destruct (keyring_down (env w)) eqn:Hk; [|by apply set_eq].
  unfold set, bind, try_except, keyring.set_password. rewrite Hb. simpl.
  destruct (String.eqb_spec value ""); [done|]. by rewrite Hk.
Qed.

Lemma delete_cases self name w :
  delete self name w =
  if blank name then (Raise (ValueError "Secret name cannot be empty"), w)
  else if keyring_down (env w)
  then (Raise (OSError "Failed to retrieve secret from keyring"),
        log (KrGet (service_name self) (strip name)) w)
  else match keyring_db w !! (service_name self, strip name) with
       | None => (Ok false, log (KrGet (service_name self) (strip name)) w)
       | Some _ =>
           match load_result self w with
           | Ok names =>
               if contains name names
               then (match save_result w with
                     | Ok _ => Ok true
                     | Raise e => Raise e
                     end,
                     save_world self (list_remove name names)
                       (delete_world self name w))
               else (Ok true, delete_world self name w)
           | Raise e => (Raise e, delete_world self name w)
           end
       end.
Proof.
  unfold delete, delete_world, bind. destruct (blank name) eqn:Hb; [done|].
  rewrite get_eq by done. destruct (keyring_down (env w)) eqn:Hk; [done|].
  destruct (keyring_db w !! (service_name self, strip name)); [|done].
  unfold try_except, keyring.delete_password. simpl. rewrite Hk.
  rewrite load_names_eq.
  match goal with |- context [load_result self ?w1] =>
    rewrite (load_result_same self w w1) by done; set (w2 := load_world self w1)
  end.
  destruct (load_result self w) as [names|e]; [|done].
  destruct (contains name names); unfold ret; [|done].
  rewrite save_names_eq, (save_result_same w w2)
    by (subst w2; by rewrite load_world_env).
  by destruct (save_result w) as [[]|].
Qed.

(** The files after [_save_names]: untouched, emptied, or the new index. *)
Lemma save_world_files_cases self names w :
  files (save_world self names w) = files w ∨
  files (save_world self names w) !! metadata_file self = Some (Unparsable "") ∨
  files (save_world self names w) !! metadata_file self =
    Some (json_dumps (index_doc names)).
Proof.
  unfold save_world. destruct (mkdir_denied (env w)); [by left|].
  destruct (open_denied (env w)); [by left|]. right.
  destruct (write_broken (env w)); simpl; [left | right]; by rewrite lookup_insert_eq.
Qed.

Lemma index_inv_same self w w' :
  files w' = files w → env w' = env w → index_inv self w → index_inv self w'.
Proof.
  intros Hf He Hinv names. rewrite list_names_fst, (load_result_same self w) by done.
  rewrite <- list_names_fst. apply Hinv.
Qed.

Lemma index_inv_save self names w :
  index_inv self w → index_unique names →
  index_inv self (save_world self names w).
Proof.
  intros Hinv Hu.
  destruct (save_world_files_cases self names w) as [Hf | [Hf | Hf]].
  - by apply (index_inv_same self w); [|apply save_world_env|].
  - intros names'. rewrite list_names_fst. unfold load_result. rewrite Hf.
    by destruct (read_denied _).
  - intros names'. rewrite list_names_fst. unfold load_result. rewrite Hf.
    destruct (read_denied _); [done|]. simpl. by intros [= <-].
Qed.

(** ** The invariant of the index, whatever the outcome *)

(** X3: [set] and [delete] keep the index free of duplicates whether they
    return or raise: if [list_names] lists no name twice before the call,
    it lists none twice after it, also when the call has failed half-way. *)
Theorem index_stays_unique self w :
  index_inv self w →
  (∀ name value, index_inv self (after (set self name value) w)) ∧
  (∀ name, index_inv self (after (delete self name) w)).
Proof.
  intros Hinv. split.
  - intros name value. unfold after. rewrite set_cases.
    destruct (blank name); [done|]. destruct (String.eqb value ""); [done|].
    destruct (keyring_down (env w)); [by apply (index_inv_same self w)|].
    assert (index_inv self (set_world self name value w)) as Hinv'.
    { apply (index_inv_same self w);
        [apply set_world_files | apply set_world_env | done]. }
    destruct (load_result self w) as [names|e] eqn:Hl; [|done].
    destruct (contains name names) eqn:Hc; [done|]. simpl.
    apply index_inv_save; [done|]. apply index_unique_append; [|done].
    apply Hinv. by rewrite list_names_fst.
  - intros name. unfold after. rewrite delete_cases.
    destruct (blank name); [done|].
    destruct (keyring_down (env w)); [by apply (index_inv_same self w)|].
    destruct (keyring_db w !! _); [|by apply (index_inv_same self w)].
    assert (index_inv self (delete_world self name w)) as Hinv'.
    { apply (index_inv_same self w);
        [apply delete_world_files | apply delete_world_env | done]. }
    destruct (load_result self w) as [names|e] eqn:Hl; [|done].
    destruct (contains name names) eqn:Hc; [|done]. simpl.
    apply index_inv_save; [done|]. apply index_unique_remove.
    apply Hinv. by rewrite list_names_fst.
Qed.

(** An index in the sequence form that lists different strings. *)
Lemma index_inv_doc self w (ks : list string) :
  files w !! metadata_file self = Some (json_dumps (index_doc (JStr <$> ks))) →
  NoDup ks → index_inv self w.
Proof.
  intros Hf Hks names. rewrite list_names_fst. unfold load_result. rewrite Hf.
  destruct (read_denied _); [done|]. simpl. intros [= <-] name.
  by apply list_count_strings.
Qed.

Lemma index_stays_unique_witness :
  index_inv demo_store (after (set demo_store "KEY" "value") disk_full_world) ∧
  index_inv demo_store (after (delete demo_store "A") half_stored_world).
Proof.
  split.
  - apply (index_stays_unique demo_store disk_full_world).
    apply (index_inv_doc demo_store disk_full_world ["A"]); [reflexivity|].
    apply (bool_decide_unpack _). vm_compute. exact I.
  - apply (index_stays_unique demo_store half_stored_world).
    apply (index_inv_doc demo_store half_stored_world ["A"; "B"]); [reflexivity|].
    apply (bool_decide_unpack _). vm_compute. exact I.
Defined.

(** ** The keyring is written before the index is looked at *)

Lemma set_after_keyring self name value w :
  blank name = false → value ≠ "" → keyring_down (env w) = false →
  keyring_db (after (set self name value) w) =
    <[(service_name self, strip name) := value]> (keyring_db w) ∧
  env (after (set self name value) w) = env w.
Proof.
  intros Hb Hv Hk. unfold after. rewrite set_cases, Hb, Hk.
  destruct (String.eqb_spec value ""); [done|].
  destruct (load_result self w) as [names|e]; [destruct (contains name names)|];
    simpl; by rewrite ?save_world_keyring, ?save_world_env,
                      set_world_keyring, set_world_env.
Qed.

Lemma delete_after_keyring self name w v :
  fst (get self name w) = Ok (Some v) →
  keyring_db (after (delete self name) w) =
    base.delete (service_name self, strip name) (keyring_db w) ∧
  env (after (delete self name) w) = env w.
Proof.
  intros (Hb & Hk & Hv)%get_ok_inv. unfold after.
  rewrite delete_cases, Hb, Hk, <- Hv.
  destruct (load_result self w) as [names|e]; [destruct (contains name names)|];
    simpl; by rewrite ?save_world_keyring, ?save_world_env,
                      delete_world_keyring, delete_world_env.
Qed.

(** X4: with a name that is not blank, a value that is not empty and a
    keyring that answers, [set] leaves the value in the keyring whether it
    returns or raises: [get] returns it afterwards.  In particular, when
    the index cannot be loaded, [set] raises what [list_names] raises and
    leaves the files alone, with the value stored and the name not listed. *)
Theorem set_writes_keyring_first self name value w :
  blank name = false → value ≠ "" → keyring_down (env w) = false →
  fst (get self name (after (set self name value) w)) = Ok (Some value) ∧
  (∀ e, fst (list_names self w) = Raise e →
        fst (set self name value w) = Raise e ∧
        files (after (set self name value) w) = files w).
Proof.
  intros Hb Hv Hk.
  destruct (set_after_keyring self name value w Hb Hv Hk) as [Hdb He]. split.
  - rewrite get_fst, Hdb, lookup_insert_eq by (by rewrite ?He). done.
  - intros e. rewrite list_names_fst. intros Hl. unfold after.
    rewrite set_cases, Hb, Hk, Hl.
    destruct (String.eqb_spec value ""); [done|]. simpl.
    split; [done | apply set_world_files].
Qed.

Lemma set_writes_keyring_first_witness :
  fst (get demo_store "KEY" (after (set demo_store "KEY" "value") garbled_world))
    = Ok (Some "value") ∧
  fst (set demo_store "KEY" "value" garbled_world) =
    Raise (OSError "Failed to read metadata file") ∧
  files (after (set demo_store "KEY" "value") garbled_world) = files garbled_world.
Proof.
  destruct (set_writes_keyring_first demo_store "KEY" "value" garbled_world)
    as [Hget Hraise]; [reflexivity | discriminate | reflexivity |].
  split; [exact Hget|]. apply Hraise. reflexivity.
Defined.

(** X5: when [delete] of a name that has a value raises, and what it
    raises is not the refusal of the keyring to delete, the value is gone
    all the same: the keyring entry was removed before the index failed,
    and [get] is absent afterwards.  In particular, when the index cannot
    be loaded, [delete] raises what [list_names] raises and leaves the
    files alone, so that the name stays listed without a value. *)
Theorem delete_clears_keyring_first self name w v e w' :
  fst (get self name w) = Ok (Some v) →
  delete self name w = (Raise e, w') →
  e ≠ OSError "Failed to delete secret from keyring" →
  fst (get self name w') = Ok None ∧
  (∀ e', fst (list_names self w) = Raise e' → e = e' ∧ files w' = files w).
Proof.
  intros Hg Hdel _. destruct (delete_after_keyring self name w v Hg) as [Hdb He].
  unfold after in Hdb, He. rewrite Hdel in Hdb, He. simpl in Hdb, He.
  destruct (get_ok_inv _ _ _ _ Hg) as (Hb & Hk & Hv). split.
  - rewrite get_fst, Hdb, lookup_delete_eq by (by rewrite ?He). done.
  - intros e'. rewrite list_names_fst. intros Hl. revert Hdel.
    rewrite delete_cases, Hb, Hk, <- Hv, Hl. intros [= <- <-].
    split; [done | apply delete_world_files].
Qed.

(** The keyring of [half_stored_world] beside an index that is no JSON. *)
Lemma delete_clears_keyring_first_witness :
  let w := with_files {[metadata_file demo_store := Unparsable "not json{"]}
             half_stored_world in
  let w' := after (delete demo_store "A") w in
  fst (get demo_store "A" w') = Ok None ∧
  (∀ e', fst (list_names demo_store w) = Raise e' →
         ValueError "Invalid JSON in metadata file" = e' ∧ files w' = files w).
Proof.
  intros w w'.
  apply (delete_clears_keyring_first demo_store "A" w "1"
           (ValueError "Invalid JSON in metadata file") w').
  - reflexivity.
  - apply (run_pair (delete demo_store "A") w
             (Raise (ValueError "Invalid JSON in metadata file"))).
    vm_compute. reflexivity.
  - discriminate.
Defined.

(** X6: when the keyring is down, [set], [get] and [delete] raise
    [OSError] after the one keyring call each of them starts with, and
    make no call on the file system: the world is the one before with that
    call added to the trace.  [delete] fails in its [get], and reports so. *)
Theorem keyring_down_stops_at_first_call self name value w :
  blank name = false → value ≠ "" → keyring_down (env w) = true →
  set self name value w =
    (Raise (OSError "Failed to store secret in keyring"),
     log (KrSet (service_name self) (strip name) value) w) ∧
  get self name w =
    (Raise (OSError "Failed to retrieve secret from keyring"),
     log (KrGet (service_name self) (strip name)) w) ∧
  delete self name w =
    (Raise (OSError "Failed to retrieve secret from keyring"),
     log (KrGet (service_name self) (strip name)) w).
Proof.
  intros Hb Hv Hk. rewrite set_cases, delete_cases, get_eq, Hb, Hk by done.
  by destruct (String.eqb_spec value "").
Qed.

(** The world [half_stored_world] with a keyring that is down. *)
Lemma keyring_down_stops_at_first_call_witness :
  let w := World (keyring_db half_stored_world) (dirs half_stored_world)
             (files half_stored_world)
             (Faults true false false false false false) [] in
  set demo_store "A" "2" w =
    (Raise (OSError "Failed to store secret in keyring"),
     log (KrSet "test-service" "A" "2") w) ∧
  get demo_store "A" w =
    (Raise (OSError "Failed to retrieve secret from keyring"),
     log (KrGet "test-service" "A") w) ∧
  delete demo_store "A" w =
    (Raise (OSError "Failed to retrieve secret from keyring"),
     log (KrGet "test-service" "A") w).
Proof.
  intros w.
  apply (keyring_down_stops_at_first_call demo_store "A" "2" w);
    [reflexivity | discriminate | reflexivity].
Defined.

(** ** What [set] and [delete] do to the index *)

Lemma list_remove_append name names :
  contains name names = false → list_remove name (names ++ [JStr name]) = names.
Proof.
  unfold contains. induction names as [|j names IH]; simpl.
  - by rewrite String.eqb_refl.
  - intros [-> Hc]%orb_false_iff. by rewrite IH.
Qed.

Lemma list_remove_absent name names :
  contains name names = false → list_remove name names = names.
Proof.
  unfold contains. induction names as [|j names IH]; simpl; [done|].
  intros [-> Hc]%orb_false_iff. by rewrite IH.
Qed.

(** The world after a successful [set] of a name that was not listed. *)
Lemma set_new_name_world self name value w w' names :
  fst (list_names self w) = Ok names →
  contains name names = false →
  set self name value w = (Ok tt, w') →
  save_result w = Ok tt ∧
  w' = save_world self (names ++ [JStr name]) (set_world self name value w).
Proof.
  rewrite list_names_fst.
  intros Hl Hc (_ & _ & _ & names' & Hl' & Hw)%set_ok_inv.
  rewrite Hl in Hl'. injection Hl' as <-. by rewrite Hc in Hw.
Qed.

(** X7: a successful [set] of a name the index does not list rewrites the
    index file as the sequence form of the names that were listed, in
    their order, followed by the new name.  An index in the legacy
    encoding is thereby converted. *)
Theorem set_appends_new_name self name value w w' names :
  fst (list_names self w) = Ok names →
  contains name names = false →
  set self name value w = (Ok tt, w') →
  files w' = <[metadata_file self := json_dumps (index_doc (names ++ [JStr name]))]>
               (files w).
Proof.
  intros Hl Hc Hset.
  destruct (set_new_name_world _ _ _ _ _ _ Hl Hc Hset) as [Hs ->].
  rewrite save_world_files_ok
    by (by rewrite (save_result_same w) by apply set_world_env).
  by rewrite set_world_files.
Qed.

Lemma set_appends_new_name_witness :
  files (after (set demo_store "KEY3" "value3") legacy_world) =
  <[metadata_file demo_store :=
      json_dumps (index_doc [JStr "KEY1"; JStr "KEY2"; JStr "KEY3"])]>
    (files legacy_world).
Proof.
  apply (set_appends_new_name demo_store "KEY3" "value3" legacy_world
           (after (set demo_store "KEY3" "value3") legacy_world)
           [JStr "KEY1"; JStr "KEY2"]).
  - reflexivity.
  - reflexivity.
  - apply (run_pair (set demo_store "KEY3" "value3") legacy_world (Ok tt)).
    vm_compute. reflexivity.
Defined.

(** X8: [delete] undoes [set]: when the name was neither listed nor had
    a value, a successful [set] followed by a [delete] that returns gives
    back the keyring as it was, and leaves an index file that lists the
    names listed before, an empty list for a fresh namespace; the index
    file is not removed. *)
Theorem set_then_delete_restores self name value w w1 b w2 names :
  fst (list_names self w) = Ok names →
  contains name names = false →
  keyring_db w !! (service_name self, strip name) = None →
  set self name value w = (Ok tt, w1) →
  delete self name w1 = (Ok b, w2) →
  b = true ∧
  keyring_db w2 = keyring_db w ∧
  files w2 = <[metadata_file self := json_dumps (index_doc names)]> (files w).
Proof.
  intros Hl Hc Hdb Hset Hdel.
  assert (files w1 =
          <[metadata_file self := json_dumps (index_doc (names ++ [JStr name]))]>
            (files w)) as Hf1.
  { destruct (set_new_name_world _ _ _ _ _ _ Hl Hc Hset) as [Hs ->].
    rewrite save_world_files_ok
      by (by rewrite (save_result_same w) by apply set_world_env).
    by rewrite set_world_files. }
  destruct (set_ok_inv _ _ _ _ _ Hset) as (Hb & Hv & Hk & _).
  destruct (set_after_keyring self name value w Hb Hv Hk) as [Hdb1 He1].
  unfold after in Hdb1, He1. rewrite Hset in Hdb1, He1. simpl in Hdb1, He1.
  assert (fst (get self name w1) = Ok (Some value)) as Hg.
  { rewrite get_fst, Hdb1, lookup_insert_eq by (by rewrite ?He1). done. }
  destruct (delete_after_keyring self name w1 value Hg) as [Hdb2 _].
  unfold after in Hdb2. rewrite Hdel in Hdb2. simpl in Hdb2.
  destruct (delete_present_inv _ _ _ _ _ _ Hg Hdel) as (-> & names1 & Hl1 & Hw).
  assert (names1 = names ++ [JStr name]) as ->.
  { revert Hl1. unfold load_result. rewrite Hf1, lookup_insert_eq.
    destruct (read_denied _); [done|]. simpl. by intros [= <-]. }
  assert (contains name (names ++ [JStr name]) = true) as Hc1.
  { apply contains_elem. set_solver. }
  rewrite Hc1 in Hw. destruct Hw as [Hs ->].
  split; [done|]. split.
  - rewrite Hdb2, Hdb1, delete_insert_eq. by apply delete_id.
  - rewrite save_world_files_ok, delete_world_files, Hf1, insert_insert_eq,
      list_remove_append
      by (by rewrite ?(save_result_same w1) by apply delete_world_env).
    done.
Qed.

Lemma set_then_delete_restores_witness :
  let w1 := after (set demo_store "KEY" "value") empty_world in
  let w2 := after (delete demo_store "KEY") w1 in
  true = true ∧
  keyring_db w2 = keyring_db empty_world ∧
  files w2 = <[metadata_file demo_store := json_dumps (index_doc [])]>
               (files empty_world).
Proof.
  intros w1 w2.
  apply (set_then_delete_restores demo_store "KEY" "value" empty_world w1 true w2 []).
  - reflexivity.
  - reflexivity.
  - reflexivity.
  - apply (run_pair (set demo_store "KEY" "value") empty_world (Ok tt)).
    vm_compute. reflexivity.
  - apply (run_pair (delete demo_store "KEY") w1 (Ok true)).
    vm_compute. reflexivity.
Defined.

(** X9: [delete] of a name that has a value but is not listed under the
    very string given removes the value and leaves the files as they are.
    So deleting with a whitespace-padded name removes the value of the
    stripped name while the index keeps listing the stripped name. *)
Theorem delete_unlisted_name_keeps_index self name w v names b w' :
  fst (get self name w) = Ok (Some v) →
  fst (list_names self w) = Ok names →
  contains name names = false →
  delete self name w = (Ok b, w') →
  b = true ∧ files w' = files w ∧
  fst (get self (strip name) w') = Ok None ∧
  fst (list_names self w') = Ok names.
Proof.
  rewrite list_names_fst. intros Hg Hl Hc Hdel.
  destruct (delete_present_inv _ _ _ _ _ _ Hg Hdel) as (-> & names' & Hl' & Hw).
  rewrite Hl in Hl'. injection Hl' as <-. rewrite Hc in Hw. subst w'.
  destruct (get_ok_inv _ _ _ _ Hg) as (Hb & Hk & _).
  split; [done|]. split; [apply delete_world_files|]. split.
  - rewrite get_fst, strip_idemp, delete_world_keyring, lookup_delete_eq
      by (by rewrite ?blank_strip_idemp, ?delete_world_env).
    done.
  - rewrite list_names_fst.
    rewrite (load_result_same self w)
      by (by rewrite ?delete_world_files, ?delete_world_env).
    done.
Qed.

Lemma delete_unlisted_name_keeps_index_witness :
  let w' := after (delete demo_store " A ") half_stored_world in
  true = true ∧ files w' = files half_stored_world ∧
  fst (get demo_store "A" w') = Ok None ∧
  fst (list_names demo_store w') = Ok [JStr "A"; JStr "B"].
Proof.
  intros w'.
  apply (delete_unlisted_name_keeps_index demo_store " A " half_stored_world "1"
           [JStr "A"; JStr "B"] true w').
  - reflexivity.
  - reflexivity.
  - reflexivity.
  - apply (run_pair (delete demo_store " A ") half_stored_world (Ok true)).
    vm_compute. reflexivity.
Defined.

(** ** Secrets that are not touched *)

Lemma set_keyring_other self name value w k :
  k ≠ (service_name self, strip name) →
  keyring_db (after (set self name value) w) !! k = keyring_db w !! k ∧
  env (after (set self name value) w) = env w.
Proof.
  intros Hne. unfold after. rewrite set_cases.
  destruct (blank name); [done|]. destruct (String.eqb value ""); [done|].
  destruct (keyring_down (env w)); [done|].
  destruct (load_result self w) as [names|e]; [destruct (contains name names)|];
    simpl; by rewrite ?save_world_keyring, ?save_world_env,
                      set_world_keyring, set_world_env, lookup_insert_ne.
Qed.

Lemma delete_keyring_other self name w k :
  k ≠ (service_name self, strip name) →
  keyring_db (after (delete self name) w) !! k = keyring_db w !! k ∧
  env (after (delete self name) w) = env w.
Proof.
  intros Hne. unfold after. rewrite delete_cases.
  destruct (blank name); [done|]. destruct (keyring_down (env w)); [done|].
  destruct (keyring_db w !! (service_name self, strip name)); [|done].
  destruct (load_result self w) as [names|e]; [destruct (contains name names)|];
    simpl; by rewrite ?save_world_keyring, ?save_world_env,
                      delete_world_keyring, delete_world_env, lookup_delete_ne.
Qed.

Lemma get_fst_same self name w w' :
  keyring_db w' !! (service_name self, strip name) =
    keyring_db w !! (service_name self, strip name) →
  env w' = env w → fst (get self name w') = fst (get self name w).
Proof.
  intros Hdb He. destruct (blank name) eqn:Hb.
  - by rewrite !get_blank.
  - rewrite !get_eq by done. simpl. by rewrite Hdb, He.
Qed.

(** X10: [set] and [delete] on one secret leave every other secret as it
    is: for a store [other] and a name [oname] whose namespace and
    stripped name are not both those of the call, [get] returns after the
    call what it returned before, whether the call returned or raised. *)
Theorem other_secrets_are_untouched self other name oname value w :
  (service_name other, strip oname) ≠ (service_name self, strip name) →
  fst (get other oname (after (set self name value) w)) = fst (get other oname w) ∧
  fst (get other oname (after (delete self name) w)) = fst (get other oname w).
Proof.
  intros Hne. split.
  - destruct (set_keyring_other self name value w _ Hne). by apply get_fst_same.
  - destruct (delete_keyring_other self name w _ Hne). by apply get_fst_same.
Qed.

Lemma other_secrets_are_untouched_witness :
  fst (get demo_store "A" (after (set demo_store "B" "2") half_stored_world)) =
    fst (get demo_store "A" half_stored_world) ∧
  fst (get demo_store "A" (after (delete demo_store "B") half_stored_world)) =
    fst (get demo_store "A" half_stored_world).
Proof.
  apply (other_secrets_are_untouched demo_store demo_store "B" "A" "2"
           half_stored_world).
  discriminate.
Defined.

(** ** [export_env] on an index it cannot use *)

Lemma export_loop_app self l1 l2 : ∀ result w,
  export_loop self (l1 ++ l2) result w =
  match export_loop self l1 result w with
  | (Ok m, w') => export_loop self l2 m w'
  | (Raise e, w') => (Raise e, w')
  end.
Proof.
  induction l1 as [|n l1 IH]; intros result w; simpl; [done|].
  unfold bind. destruct (get_item self n w) as [[v|e] w1]; [|done].
  destruct n; try apply IH. destruct v as [value|]; [|apply IH].
  destruct (negb _); apply IH.
Qed.

Lemma get_item_error self n e w :
  entry_error n = Some e → get_item self n w = (Raise e, w).
Proof.
  destruct n as [|b|z|name|items|ms]; simpl; try (by intros [= <-]).
  - intros [= <-]. by destruct b.
  - intros [= <-]. by destruct (negb _).
  - destruct (blank name) eqn:Hb; [|done]. intros [= <-]. by apply get_blank.
  - intros [= <-]. by destruct items.
  - intros [= <-]. by destruct ms.
Qed.

(** X11: [export_env] gives up at the first element of the index that
    [get] does not accept: when the keyring answers and the names before
    that element are names that are not blank, it raises [ValueError] for
    a blank or falsy element and [AttributeError] for any other element
    that is no string, and returns no mapping. *)
Theorem export_env_stops_at_bad_entry self w good bad rest e :
  fst (list_names self w) = Ok (good ++ bad :: rest) →
  Forall proper_name good →
  keyring_down (env w) = false →
  entry_error bad = Some e →
  fst (export_env self w) = Raise e.
Proof.
  rewrite list_names_fst. intros Hl Hgood Hk Hbad.
  unfold export_env, bind. rewrite load_names_eq, Hl, export_loop_app.
  destruct (export_loop_spec self good Hgood ∅ (load_world self w))
    as (m & w' & -> & _ & _); [by rewrite load_world_env|].
  simpl. unfold bind. by rewrite (get_item_error _ _ e).
Qed.

Lemma export_env_stops_at_bad_entry_witness :
  fst (export_env demo_store mixed_index_world) = Raise AttributeError.
Proof.
  apply (export_env_stops_at_bad_entry demo_store mixed_index_world
           [JStr "A"] (JNum 7) [JStr "B"]).
  - reflexivity.
  - repeat constructor. eexists. split; reflexivity.
  - reflexivity.
  - reflexivity.
Defined.

(** ** An index file that is JSON but no object *)

(** X12: when the index file holds JSON whose top level is no object (a
    list, a string, a number, [true], [null]), [list_names] and
    [export_env] raise [AttributeError], which is neither the [ValueError]
    nor the [OSError] their docstrings announce; the files stay as they
    are. *)
Theorem index_not_an_object self w j :
  files w !! metadata_file self = Some (Parsed j) →
  read_denied (env w) = false →
  (∀ ms, j ≠ JObj ms) →
  fst (list_names self w) = Raise AttributeError ∧
  fst (export_env self w) = Raise AttributeError ∧
  files (after (list_names self) w) = files w.
Proof.
  intros Hf Hr Hj.
  assert (load_result self w = Raise AttributeError) as Hl.
  { unfold load_result. rewrite Hf, Hr. destruct j; try done. by destruct (Hj members). }
  split; [by rewrite list_names_fst|]. split.
  - unfold export_env, bind. by rewrite load_names_eq, Hl.
  - unfold after, list_names. rewrite load_names_eq. apply load_world_files.
Qed.

Lemma index_not_an_object_witness :
  let w := with_files
             {[metadata_file demo_store := Parsed (JArr [JStr "A"; JStr "B"])]}
             empty_world in
  fst (list_names demo_store w) = Raise AttributeError ∧
  fst (export_env demo_store w) = Raise AttributeError ∧
  files (after (list_names demo_store) w) = files w.
Proof.
  intros w.
  apply (index_not_an_object demo_store w (JArr [JStr "A"; JStr "B"]));
    [reflexivity | reflexivity | discriminate].
Defined.

(** ** A namespace that was never written *)

(** X13: in a namespace whose index file does not exist, [list_names]
    returns the empty list and [export_env] the empty mapping, after
    asking once whether the file exists; this holds whatever the platform
    refuses, the keyring included.  The first successful [set] then
    creates the directory with mode [0o700], writes the index with the
    one name and sets the file to mode [0o600], in that order. *)
Theorem fresh_namespace self w :
  files w !! metadata_file self = None →
  list_names self w = (Ok [], log (FsExists (metadata_file self)) w) ∧
  export_env self w = (Ok ∅, log (FsExists (metadata_file self)) w) ∧
  (∀ name value w',
     set self name value w = (Ok tt, w') →
     files w' = <[metadata_file self := json_dumps (index_doc [JStr name])]> (files w) ∧
     dirs w' = {[base_dir self]} ∪ dirs w ∧
     trace w' = trace w ++
       [KrSet (service_name self) (strip name) value;
        FsExists (metadata_file self);
        FsMkdir (base_dir self) mode_0o700;
        FsWrite (metadata_file self) (json_dumps (index_doc [JStr name]));
        FsChmod (metadata_file self) mode_0o600]).
Proof.
  intros Hf.
  assert (load_result self w = Ok []) as Hl by (unfold load_result; by rewrite Hf).
  assert (load_world self w = log (FsExists (metadata_file self)) w) as Hw
    by (unfold load_world; by rewrite Hf).
  split; [by unfold list_names; rewrite load_names_eq, Hl, Hw|].
  split; [by unfold export_env, bind; rewrite load_names_eq, Hl, Hw|].
  intros name value w' (_ & _ & _ & names & Hl' & Hset)%set_ok_inv.
  rewrite Hl in Hl'. injection Hl' as <-. simpl in Hset.
  destruct Hset as [(Hm & Ho & Hb & _)%save_result_ok ->].
  unfold save_world, set_world, load_world. simpl.
  rewrite Hf. simpl. rewrite Hm, Ho, Hb. simpl.
  rewrite insert_insert_eq, <- !app_assoc. done.
Qed.

Lemma fresh_namespace_witness :
  let w' := after (set demo_store "KEY" "value") empty_world in
  files w' = {[metadata_file demo_store := json_dumps (index_doc [JStr "KEY"])]} ∧
  dirs w' = {["/tmp/.secrets"]} ∪ ∅ ∧
  trace w' =
    [KrSet "test-service" "KEY" "value";
     FsExists (metadata_file demo_store);
     FsMkdir "/tmp/.secrets" mode_0o700;
     FsWrite (metadata_file demo_store) (json_dumps (index_doc [JStr "KEY"]));
     FsChmod (metadata_file demo_store) mode_0o600].
Proof.
  intros w'.
  destruct (fresh_namespace demo_store empty_world) as (_ & _ & Hset);
    [reflexivity|].
  apply (Hset "KEY" "value" w').
  apply (run_pair (set demo_store "KEY" "value") empty_world (Ok tt)).
  vm_compute. reflexivity.
Defined.

(** ** The constructor *)

Section replace_char.
Context (old : ascii) (Hold : is_space old = false).

Lemma is_space_replace c :
  is_space (if Ascii.eqb c old then "_"%char else c) = is_space c.
Proof using Hold.
  destruct (Ascii.eqb_spec c old) as [->|]; [by rewrite Hold | done].
Qed.

Lemma lstrip_replace_char s :
  lstrip (replace_char old s) = replace_char old (lstrip s).
Proof using Hold.
  induction s as [|c r IH]; simpl; [done|].
  rewrite is_space_replace. by destruct (is_space c).
Qed.

Lemma rstrip_replace_char s :
  rstrip (replace_char old s) = replace_char old (rstrip s).
Proof using Hold.
  induction s as [|c r IH]; simpl; [done|].
  rewrite IH, is_space_replace.
  destruct (rstrip r); simpl; [by destruct (is_space c) | done].
Qed.

Lemma strip_replace_char s :
  strip (replace_char old s) = replace_char old (strip s).
Proof using Hold.
  unfold strip. by rewrite lstrip_replace_char, rstrip_replace_char.
Qed.

Lemma replace_char_empty s : replace_char old s = "" ↔ s = "".
Proof. by destruct s. Qed.

Lemma blank_replace_char s : blank (replace_char old s) = blank s.
Proof using Hold.
  rewrite !blank_strip, strip_replace_char.
  destruct (String.eqb_spec (strip s) "") as [->|Hne]; [done|].
  apply String.eqb_neq. by rewrite replace_char_empty.
Qed.

Lemma replace_char_length s :
  String.length (replace_char old s) = String.length s.
Proof. induction s as [|c r IH]; simpl; [done | by rewrite IH]. Qed.

End replace_char.

Lemma replace_char_idemp old s :
  old ≠ "_"%char → replace_char old (replace_char old s) = replace_char old s.
Proof.
  intros Hne. induction s as [|c r IH]; simpl; [done|]. rewrite IH. f_equal.
  destruct (Ascii.eqb_spec c old) as [->|]; [|by destruct (Ascii.eqb_spec c old)].
  by destruct (Ascii.eqb_spec "_"%char old).
Qed.

Lemma replace_char_gone old s :
  old ≠ "_"%char → old ∉ list_ascii_of_string (replace_char old s).
Proof.
  intros Hne. induction s as [|c r IH]; simpl; [by intros ?%elem_of_nil|].
  rewrite elem_of_cons. intros [Heq|?]; [|done].
  destruct (Ascii.eqb_spec c old); congruence.
Qed.

Lemma replace_char_keeps_out c old s :
  c ≠ "_"%char → c ∉ list_ascii_of_string s →
  c ∉ list_ascii_of_string (replace_char old s).
Proof.
  intros Hne. induction s as [|c' r IH]; simpl; [done|].
  rewrite !elem_of_cons. intros Hs [Heq|?]; [|naive_solver].
  destruct (Ascii.eqb_spec c' old); naive_solver.
Qed.

(** X14: the constructor accepts every namespace that is not blank.
    The store it builds has the stripped namespace, which is not blank
    either, and an index file directly in the base directory: the
    file name is [metadata_], the namespace with every slash and backslash
    replaced, and [.json], and holds neither a slash nor a backslash
    from the namespace. *)
Theorem init_builds_store home service base :
  blank service = false →
  ∃ st safe,
    __init__ home service base = Ok st ∧
    service_name st = strip service ∧
    blank (service_name st) = false ∧
    base_dir st = default (Path.join home ".secrets") base ∧
    metadata_file st =
      Path.join (base_dir st) ("metadata_" +:+ safe +:+ ".json") ∧
    String.length safe = String.length (strip service) ∧
    ("/"%char ∉ list_ascii_of_string safe) ∧
    ("\"%char ∉ list_ascii_of_string safe).
Proof.
  intros Hb. unfold __init__. rewrite Hb. eexists _, _. split; [done|]. simpl.
  split; [done|]. split; [by rewrite blank_strip_idemp|].
  split; [by destruct base|]. split; [done|].
  split; [by rewrite !replace_char_length|]. split.
  - apply replace_char_keeps_out; [done|]. by apply replace_char_gone.
  - by apply replace_char_gone.
Qed.

Lemma init_builds_store_witness :
  ∃ st safe,
    __init__ "/home/u" " team/prod " None = Ok st ∧
    service_name st = "team/prod" ∧
    blank (service_name st) = false ∧
    base_dir st = "/home/u/.secrets" ∧
    metadata_file st =
      Path.join (base_dir st) ("metadata_" +:+ safe +:+ ".json") ∧
    String.length safe = 9 ∧
    ("/"%char ∉ list_ascii_of_string safe) ∧
    ("\"%char ∉ list_ascii_of_string safe).
Proof.
  apply (init_builds_store "/home/u" " team/prod " None). reflexivity.
Defined.

(** X15: namespaces that differ only in a slash where the other has an
    underscore get the same index file.  For a store built for [service],
    the constructor builds for [service] with its slashes replaced a store
    with the same index file, whose namespace differs as soon as [service]
    has a slash; the two then keep their values apart in the keyring but
    read one index, so [list_names] of either lists the names of both. *)
Theorem slash_and_underscore_share_index home service base st :
  __init__ home service base = Ok st →
  ∃ st',
    __init__ home (replace_char "/"%char service) base = Ok st' ∧
    metadata_file st' = metadata_file st ∧
    ("/"%char ∈ list_ascii_of_string (strip service) →
     service_name st' ≠ service_name st) ∧
    ∀ w, list_names st' w = list_names st w.
Proof.
  unfold __init__. destruct (blank service) eqn:Hb; [done|]. intros [= <-].
  rewrite blank_replace_char, Hb by done. eexists. split; [done|]. simpl.
  rewrite strip_replace_char, replace_char_idemp by done.
  split; [done|]. split.
  - intros Hin Heq. rewrite <- Heq in Hin. by apply replace_char_gone in Hin.
  - intros w. unfold list_names. by rewrite !load_names_eq.
Qed.

Lemma slash_and_underscore_share_index_witness :
  ∃ st', __init__ "/home/u" "team_prod" None = Ok st' ∧
    metadata_file st' = "/home/u/.secrets/metadata_team_prod.json" ∧
    ("/"%char ∈ list_ascii_of_string "team/prod" → service_name st' ≠ "team/prod") ∧
    ∀ w, list_names st' w =
         list_names (Store "team/prod" "/home/u/.secrets"
                       "/home/u/.secrets/metadata_team_prod.json") w.
Proof.
  apply (slash_and_underscore_share_index "/home/u" "team/prod" None
           (Store "team/prod" "/home/u/.secrets"
              "/home/u/.secrets/metadata_team_prod.json")).
  reflexivity.
Defined.

(** * The command line *)

(** X17: the command [get] shows the value only when asked to: without
    [--print], and without [--reveal] in the JSON format, what it prints
    and how it ends are the same for any two values the store may return
    for the secret, whatever store it is given and whatever the console
    can render. *)
Theorem get_command_hides_value renders st name format reveal w1 w2 v1 v2 :
  reveal && cli.is_json format = false →
  fst (cli.store_get st name w1) = Ok (Some v1) →
  fst (cli.store_get st name w2) = Ok (Some v2) →
  printed (cli.get renders st name false format reveal) w1 =
    printed (cli.get renders st name false format reveal) w2 ∧
  ending (cli.get renders st name false format reveal) w1 =
    ending (cli.get renders st name false format reveal) w2.
Proof.
  intros Hq Hg1 Hg2.
  unfold printed, ending, cli.get, except, bindP, call. simpl.
  destruct (cli.store_get st name w1) as [r1 w1'],
    (cli.store_get st name w2) as [r2 w2'].
  simpl in Hg1, Hg2. subst r1 r2. simpl. rewrite Hq.
  destruct (cli.is_json format); simpl; [done|].
  unfold cli.console_print.
  destruct (renders (cli.SecretExists name)); simpl; [|done].
  by destruct (renders cli.UsePrint).
Qed.

Lemma get_command_hides_value_witness :
  let st := cli.Methods (get demo_store) (delete demo_store) in
  let w2 := with_keyring {[("test-service", "A") := "swordfish"]} half_stored_world in
  printed (cli.get (λ _, true) st "A" false cli.TEXT true) half_stored_world =
    printed (cli.get (λ _, true) st "A" false cli.TEXT true) w2 ∧
  ending (cli.get (λ _, true) st "A" false cli.TEXT true) half_stored_world =
    ending (cli.get (λ _, true) st "A" false cli.TEXT true) w2.
Proof.
  intros st w2.
  apply (get_command_hides_value (λ _, true) st "A" cli.TEXT true
           half_stored_world w2 "1" "swordfish"); reflexivity.
Defined.

(** X18: the command [delete] deletes nothing without consent: without
    [--yes], in the JSON format or when the prompt is not answered with
    yes, the [get] it starts with is its only call on the store, so that
    the world it leaves is the world that [get] has left; and it does not
    return normally.  This holds whatever store it is given and whatever
    the console can render. *)
Theorem delete_command_needs_consent renders st name format answer w :
  cli.is_json format = true ∨ answer ≠ Some true →
  world_after (cli.delete renders st name false format answer) w =
    after (cli.store_get st name) w ∧
  ending (cli.delete renders st name false format answer) w ≠ Return tt.
Proof.
  intros Hc. unfold world_after, ending, after, cli.delete, except, bindP, call.
  simpl. destruct (cli.store_get st name w) as [[[v|]|e] w1]; simpl.
  - destruct (cli.is_json format); simpl; [done|].
    unfold cli.console_print.
    destruct (renders (cli.WillDelete name)); simpl; [|done].
    destruct answer as [[]|]; simpl; [by destruct Hc | | done].
    by destruct (renders cli.DeletionCancelled).
  - unfold cli.console_print.
    destruct (cli.is_json format); simpl; [done|].
    by destruct (renders (cli.NotFound name)).
  - destruct (cli.caught e) as [text|]; simpl; [|done]. unfold cli.console_print.
    destruct (cli.is_json format); simpl; [done|].
    by destruct (renders (cli.ErrorText text)).
Qed.

Lemma delete_command_needs_consent_witness :
  let st := cli.Methods (get demo_store) (delete demo_store) in
  world_after (cli.delete (λ _, true) st "A" false cli.TEXT (Some false))
    half_stored_world = after (get demo_store "A") half_stored_world ∧
  ending (cli.delete (λ _, true) st "A" false cli.TEXT (Some false))
    half_stored_world ≠ Return tt.
Proof.
  intros st.
  apply (delete_command_needs_consent (λ _, true) st "A" cli.TEXT (Some false)
           half_stored_world).
  right. discriminate.
Defined.

(** * The scripts *)

Lemma append_inj_l (s a b : string) : s +:+ a = s +:+ b → a = b.
Proof. induction s as [|c s IH]; simpl; [done|]. intros [= ?]. by apply IH. Qed.

Lemma scripts_files_differ home :
  metadata_file (ai_keys_store home) ≠ metadata_file (ai_secrets_store home).
Proof. unfold ai_keys_store, Path.join. simpl. by intros [=]%append_inj_l. Qed.

Lemma save_world_files_other self names w p :
  p ≠ metadata_file self → files (save_world self names w) !! p = files w !! p.
Proof.
  intros Hp. unfold save_world.
  destruct (mkdir_denied (env w)); [done|]. destruct (open_denied (env w)); [done|].
  destruct (write_broken (env w)); simpl; by rewrite !lookup_insert_ne.
Qed.

Lemma set_files_other self name value w p :
  p ≠ metadata_file self →
  files (after (set self name value) w) !! p = files w !! p.
Proof.
  intros Hp. unfold after. rewrite set_cases.
  destruct (blank name); [done|]. destruct (String.eqb value ""); [done|].
  destruct (keyring_down (env w)); [done|].
  destruct (load_result self w) as [names|e]; [destruct (contains name names)|];
    simpl; by rewrite ?save_world_files_other, set_world_files.
Qed.

Lemma delete_ok_key_absent self name w b w' :
  delete self name w = (Ok b, w') →
  keyring_db w' !! (service_name self, strip name) = None.
Proof.
  rewrite delete_cases. destruct (blank name); [done|].
  destruct (keyring_db w !! (service_name self, strip name)) eqn:Hv;
    destruct (keyring_down (env w)); try done.
  - destruct (load_result self w) as [names|e]; [|done].
    destruct (contains name names); intros [= _ <-];
      by rewrite ?save_world_keyring, delete_world_keyring, lookup_delete_eq.
  - by intros [= _ <-].
Qed.

Section migrate.
Import migrate_service_name.
Context (old new : t).
Context (Hservice : service_name old ≠ service_name new).
Context (Hfile : metadata_file old ≠ metadata_file new).

(** What the loop of [migrate] has done when it returns. *)
Lemma migrate_loop_spec names : ∀ migrated w out n w' out',
  migrate_loop old new names migrated (w, out) = (Return n, (w', out')) →
  env w' = env w ∧
  files w' !! metadata_file old = files w !! metadata_file old ∧
  (∀ k, keyring_db w' !! (service_name old, k) =
        keyring_db w !! (service_name old, k)) ∧
  (∀ k, keyring_db w' !! (service_name new, k) =
          keyring_db w !! (service_name new, k) ∨
        keyring_db w' !! (service_name new, k) =
          keyring_db w !! (service_name old, k)) ∧
  (∀ name v, JStr name ∈ names →
     fst (get old name w) = Ok (Some v) → v ≠ "" →
     keyring_db w' !! (service_name new, strip name) = Some v).
Proof using Hservice Hfile.
  induction names as [|n0 names IH]; intros migrated w out n w' out'.
  { simpl. intros [= _ <- _]. repeat split; auto. by intros ?? ?%elem_of_nil. }
  simpl. unfold bindP at 1, call at 1. simpl.
  pose proof (ps_get_item old n0 w) as Hs. unfold after in Hs.
  destruct (get_item old n0 w) as [[value|e] w1] eqn:Hg; [|done].
  destruct Hs as (Hdb1 & _ & Hf1 & He1). simpl in *.
  destruct n0 as [| | |name0| |];
    try (by destruct (truthy _) in Hg); try done.
  { simpl in Hg. by destruct b. }
  { simpl in Hg. by destruct (negb _). }
  2: { simpl in Hg. by destruct items. }
  2: { simpl in Hg. by destruct members. }
  simpl in Hg.
  assert (fst (get old name0 w) = Ok value) as Hg0 by (by rewrite Hg).
  destruct (get_ok_inv _ _ _ _ Hg0) as (Hb0 & Hk & Hvalue).
  (* the rest of the loop, from a world that agrees with [w] on the old
     namespace *)
  assert (∀ w2 out2 migrated2,
    env w2 = env w →
    files w2 !! metadata_file old = files w !! metadata_file old →
    (∀ k, keyring_db w2 !! (service_name old, k) =
          keyring_db w !! (service_name old, k)) →
    (∀ k, keyring_db w2 !! (service_name new, k) =
            keyring_db w !! (service_name new, k) ∨
          keyring_db w2 !! (service_name new, k) =
            keyring_db w !! (service_name old, k)) →
    (∀ v, value = Some v → v ≠ "" →
          keyring_db w2 !! (service_name new, strip name0) = Some v) →
    migrate_loop old new names migrated2 (w2, out2) = (Return n, (w', out')) →
    env w' = env w ∧
    files w' !! metadata_file old = files w !! metadata_file old ∧
    (∀ k, keyring_db w' !! (service_name old, k) =
          keyring_db w !! (service_name old, k)) ∧
    (∀ k, keyring_db w' !! (service_name new, k) =
            keyring_db w !! (service_name new, k) ∨
          keyring_db w' !! (service_name new, k) =
            keyring_db w !! (service_name old, k)) ∧
    (∀ name v, JStr name ∈ JStr name0 :: names →
       fst (get old name w) = Ok (Some v) → v ≠ "" →
       keyring_db w' !! (service_name new, strip name) = Some v)) as Hrest.
  { intros w2 out2 migrated2 He2 Hf2 Hold2 Hnew2 Hhead Hloop.
    destruct (IH _ _ _ _ _ _ Hloop) as (He' & Hf' & Hold' & Hnew' & Hcopied).
    split; [congruence|]. split; [congruence|].
    split; [intros k; by rewrite Hold', Hold2|]. split.
    - intros k. destruct (Hnew' k) as [-> | ->]; [apply Hnew2|].
      right. apply Hold2.
    - intros name v [[= ->] | Hin]%elem_of_cons Hgv Hv.
      + rewrite Hg0 in Hgv. injection Hgv as ->.
        destruct (Hnew' (strip name0)) as [-> | ->].
        * by apply Hhead.
        * by rewrite Hold2, <- Hvalue.
      + apply Hcopied; [done| |done].
        rewrite <- Hgv. apply get_fst_same; [apply Hold2 | done]. }
  destruct value as [v|].
  - destruct (String.eqb_spec v "") as [->|Hv]; simpl.
    + unfold bindP at 1, print at 1. simpl.
      apply Hrest;
        first [ done | by rewrite Hf1 | intros k; by rewrite Hdb1
              | intros k; left; by rewrite Hdb1 | by intros ? [= <-] ].
    + unfold bindP at 1, call at 1. simpl.
      destruct (set_after_keyring new name0 v w1) as [Hdb2 He2];
        [done | done | by rewrite He1 |].
      pose proof (set_files_other new name0 v w1 _ Hfile) as Hf2.
      unfold after in Hdb2, He2, Hf2.
      destruct (set new name0 v w1) as [[[]|e] w2]; [|done]. simpl in *.
      unfold bindP at 1, print at 1. simpl. apply Hrest.
      * by rewrite He2, He1.
      * by rewrite Hf2, Hf1.
      * intros k. rewrite Hdb2, lookup_insert_ne, Hdb1; [done|].
        intros [= ? _]. by apply Hservice.
      * intros k. rewrite Hdb2, Hdb1.
        destruct (decide (k = strip name0)) as [->|Hk'].
        -- right. by rewrite lookup_insert_eq.
        -- left. rewrite lookup_insert_ne; [done|]. by intros [= ?].
      * intros v' [= <-] _. by rewrite Hdb2, lookup_insert_eq.
  - unfold bindP at 1, print at 1. simpl.
    apply Hrest;
      first [ done | by rewrite Hf1 | intros k; by rewrite Hdb1
            | intros k; left; by rewrite Hdb1 ].
Qed.

End migrate.

#[local] Arguments migrate_service_name.migrate_loop : simpl never.
#[local] Arguments cleanup_old_service.cleanup_loop : simpl never.
#[local] Arguments print_each : simpl never.

Lemma print_each_run {E O A} (f : A → O) (xs : list A) (s : world * list O) :
  print_each (E:=E) f xs s = (Return tt, (fst s, snd s ++ (f <$> xs))).
Proof.
  revert s. induction xs as [|x xs IH]; intros [w1 o1]; unfold print_each; simpl.
  - by rewrite app_nil_r.
  - unfold bindP, print. simpl. fold (print_each (E:=E) f xs).
    rewrite IH. simpl. by rewrite <- app_assoc.
Qed.

Lemma init_ai_keys home :
  __init__ home "ai-keys" None = Ok (ai_keys_store home).
Proof. reflexivity. Qed.

Lemma init_ai_secrets home :
  __init__ home "ai-secrets" None = Ok (ai_secrets_store home).
Proof. reflexivity. Qed.

(** X20: when [migrate] has run to its end, every name the old index
    listed whose value in the namespace [ai-keys] was not empty has that
    value in the namespace [ai-secrets]; and the old namespace is as it
    was: [get] on the old store returns what it returned, and the old
    index file is unchanged. *)
Theorem migrate_copies_values home w names w' out' :
  fst (list_names (ai_keys_store home) w) = Ok names →
  migrate_service_name.migrate home (w, []) = (Return tt, (w', out')) →
  (∀ name v,
     JStr name ∈ names →
     fst (get (ai_keys_store home) name w) = Ok (Some v) → v ≠ "" →
     fst (get (ai_secrets_store home) name w') = Ok (Some v)) ∧
  (∀ name, fst (get (ai_keys_store home) name w') =
           fst (get (ai_keys_store home) name w)) ∧
  files w' !! metadata_file (ai_keys_store home) =
    files w !! metadata_file (ai_keys_store home).
Proof.
  rewrite list_names_fst. intros Hl.
  unfold migrate_service_name.migrate.
  unfold bindP at 1, call at 1. rewrite init_ai_keys. simpl.
  unfold bindP at 1, call at 1. rewrite init_ai_secrets. simpl.
  unfold bindP at 1, call at 1. simpl. unfold list_names.
  rewrite load_names_eq, Hl. simpl.
  set (old := ai_keys_store home). set (new := ai_secrets_store home).
  set (w0 := load_world old w).
  assert (same_state w w0) as (Hdb0 & _ & Hf0 & He0) by apply load_world_same.
  destruct names as [|n0 names'].
  { unfold print. simpl. intros [= <- _]. split; [by intros ?? ?%elem_of_nil|].
    split; [|by rewrite Hf0]. intros name. apply get_fst_same; [by rewrite Hdb0 | done]. }
  set (names := n0 :: names') in *.
  unfold bindP at 1, print at 1. simpl.
  unfold bindP at 1.
  rewrite print_each_run. simpl.
  unfold bindP at 1, print at 1. simpl.
  unfold bindP at 1.
  destruct (migrate_service_name.migrate_loop old new names 0 _)
    as [[n|e] [w1 o1]] eqn:Hloop; [|done].
  unfold bindP, print. simpl. intros [= <- _].
  destruct (migrate_loop_spec old new ltac:(done) (scripts_files_differ home)
              _ _ _ _ _ _ _ Hloop) as (He1 & Hf1 & Hold1 & _ & Hcopied).
  split; [|split].
  - intros name v Hin Hg Hv.
    destruct (get_ok_inv _ _ _ _ Hg) as (Hb & Hk & _).
    rewrite get_fst by (by rewrite ?He1, ?He0). f_equal.
    apply Hcopied; [done| |done].
    rewrite <- Hg. apply get_fst_same; [by rewrite Hdb0 | done].
  - intros name. apply get_fst_same; [|by rewrite He1, He0].
    by rewrite (Hold1 (strip name)), Hdb0.
  - rewrite <- Hf0. exact Hf1.
Qed.

Lemma migrate_copies_values_witness :
  let w' := world_after (migrate_service_name.migrate "/home/u") old_service_world in
  (∀ name v,
     JStr name ∈ [JStr "A"; JStr "B"] →
     fst (get (ai_keys_store "/home/u") name old_service_world) = Ok (Some v) →
     v ≠ "" →
     fst (get (ai_secrets_store "/home/u") name w') = Ok (Some v)) ∧
  (∀ name, fst (get (ai_keys_store "/home/u") name w') =
           fst (get (ai_keys_store "/home/u") name old_service_world)) ∧
  files w' !! metadata_file (ai_keys_store "/home/u") =
    files old_service_world !! metadata_file (ai_keys_store "/home/u").
Proof.
  intros w'.
  apply (migrate_copies_values "/home/u" old_service_world [JStr "A"; JStr "B"] w'
           (printed (migrate_service_name.migrate "/home/u") old_service_world)).
  - reflexivity.
  - vm_compute. reflexivity.
Defined.

Lemma delete_env self name w : env (after (delete self name) w) = env w.
Proof.
  unfold after. rewrite delete_cases.
  destruct (blank name); [done|]. destruct (keyring_down (env w)); [done|].
  destruct (keyring_db w !! (service_name self, strip name)); [|done].
  destruct (load_result self w) as [names|e]; [destruct (contains name names)|];
    simpl; by rewrite ?save_world_env, delete_world_env.
Qed.

Lemma delete_item_ok self n w b w' :
  delete_item self n w = (Ok b, w') → ∃ name, n = JStr name.
Proof.
  destruct n as [|b0|z|name|items|ms]; simpl; unfold raise;
    try (by repeat case_match). by eauto.
Qed.

(** What the loop of [cleanup] has done when it returns. *)
Lemma cleanup_loop_spec old names : ∀ deleted w out n w' out',
  cleanup_old_service.cleanup_loop old names deleted (w, out) =
    (Return n, (w', out')) →
  env w' = env w ∧
  (∀ k, keyring_db w' !! k = keyring_db w !! k ∨ keyring_db w' !! k = None) ∧
  (∀ k, k.1 ≠ service_name old → keyring_db w' !! k = keyring_db w !! k) ∧
  (∀ name, JStr name ∈ names →
           keyring_db w' !! (service_name old, strip name) = None).
Proof.
  induction names as [|n0 names IH]; intros deleted w out n w' out';
    unfold cleanup_old_service.cleanup_loop;
    fold cleanup_old_service.cleanup_loop.
  { intros [= _ <- _]. repeat split; auto. by intros ? ?%elem_of_nil. }
  unfold bindP at 1, call at 1. simpl.
  destruct (delete_item old n0 w) as [[gone|e] w1] eqn:Hd; [|done].
  destruct (delete_item_ok _ _ _ _ _ Hd) as [name0 ->]. simpl in Hd.
  pose proof (delete_ok_key_absent _ _ _ _ _ Hd) as Hgone.
  assert (∀ k, k ≠ (service_name old, strip name0) →
               keyring_db w1 !! k = keyring_db w !! k) as Hother.
  { intros k Hk. destruct (delete_keyring_other old name0 w k Hk) as [Hdb _].
    unfold after in Hdb. by rewrite Hd in Hdb. }
  assert (env w1 = env w) as He1.
  { pose proof (delete_env old name0 w) as He. unfold after in He.
    by rewrite Hd in He. }
  assert (∀ out1 deleted1,
    cleanup_old_service.cleanup_loop old names deleted1 (w1, out1) =
      (Return n, (w', out')) →
    env w' = env w ∧
    (∀ k, keyring_db w' !! k = keyring_db w !! k ∨ keyring_db w' !! k = None) ∧
    (∀ k, k.1 ≠ service_name old → keyring_db w' !! k = keyring_db w !! k) ∧
    (∀ name, JStr name ∈ JStr name0 :: names →
             keyring_db w' !! (service_name old, strip name) = None)) as Hrest.
  { intros out1 deleted1 Hloop.
    destruct (IH _ _ _ _ _ _ Hloop) as (He' & Hkeep & Hforeign & Hlisted).
    split; [congruence|]. split; [|split].
    - intros k. destruct (Hkeep k) as [-> | ->]; [|by right].
      destruct (decide (k = (service_name old, strip name0))) as [->|Hk].
      + by right.
      + left. by apply Hother.
    - intros k Hk. rewrite Hforeign by done. apply Hother. by intros ->.
    - intros name [[= ->] | Hin]%elem_of_cons; [|by apply Hlisted].
      destruct (Hkeep (service_name old, strip name0)) as [-> | ->]; done. }
  destruct gone; unfold bindP at 1, print at 1; simpl; apply Hrest.
Qed.

(** X21: [cleanup] deletes nothing unless the answer, in lower case, is
    [yes]: with any other answer it leaves the keyring, the directories
    and the files as they are, whatever the index holds. *)
Theorem cleanup_needs_yes home response w :
  cleanup_old_service.lower response ≠ "yes" →
  same_state w (world_after (cleanup_old_service.cleanup home response) w).
Proof.
  intros Hno. unfold world_after, cleanup_old_service.cleanup.
  unfold bindP at 1, call at 1. rewrite init_ai_keys. simpl.
  unfold bindP at 1, call at 1. simpl.
  pose proof (ps_load_names (ai_keys_store home) w) as Hs. unfold after in Hs.
  unfold list_names.
  destruct (_load_names (ai_keys_store home) w) as [[names|e] w0]; simpl in *; [|done].
  destruct names as [|n0 names]; [done|].
  unfold bindP at 1, print at 1. simpl.
  unfold bindP at 1. rewrite print_each_run. simpl.
  unfold bindP at 1, print at 1. simpl.
  destruct (String.eqb_spec (cleanup_old_service.lower response) "yes"); done.
Qed.

Lemma cleanup_needs_yes_witness :
  same_state old_service_world
    (world_after (cleanup_old_service.cleanup "/home/u" "y") old_service_world).
Proof.
  apply (cleanup_needs_yes "/home/u" "y" old_service_world). discriminate.
Defined.

(** X22: when [cleanup], answered [yes] in any mix of cases, has run to
    its end, no name the index listed has a value left in the namespace
    [ai-keys], and every entry the keyring holds for another namespace is
    as it was. *)
Theorem cleanup_clears_listed_names home response w names w' out' :
  cleanup_old_service.lower response = "yes" →
  fst (list_names (ai_keys_store home) w) = Ok names →
  cleanup_old_service.cleanup home response (w, []) = (Return tt, (w', out')) →
  (∀ name, JStr name ∈ names → keyring_db w' !! ("ai-keys", strip name) = None) ∧
  (∀ service name, service ≠ "ai-keys" →
     keyring_db w' !! (service, name) = keyring_db w !! (service, name)).
Proof.
  intros Hyes. rewrite list_names_fst. intros Hl.
  unfold cleanup_old_service.cleanup.
  unfold bindP at 1, call at 1. rewrite init_ai_keys. simpl.
  unfold bindP at 1, call at 1. simpl. unfold list_names.
  rewrite load_names_eq, Hl. simpl.
  set (old := ai_keys_store home). set (w0 := load_world old w).
  assert (keyring_db w0 = keyring_db w) as Hdb0 by apply load_world_keyring.
  destruct names as [|n0 names'].
  { unfold print. simpl. intros [= <- _]. split; [by intros ? ?%elem_of_nil|].
    intros service name _. by rewrite Hdb0. }
  set (names := n0 :: names') in *.
  unfold bindP at 1, print at 1. simpl.
  unfold bindP at 1. rewrite print_each_run. simpl.
  unfold bindP at 1, print at 1. simpl. rewrite Hyes. simpl.
  unfold bindP at 1, print at 1. simpl.
  unfold bindP at 1.
  destruct (cleanup_old_service.cleanup_loop old names 0 _)
    as [[n|e] [w1 o1]] eqn:Hloop; [|done].
  unfold bindP, print. simpl. intros [= <- _].
  destruct (cleanup_loop_spec old _ _ _ _ _ _ _ Hloop)
    as (_ & _ & Hforeign & Hlisted).
  split; [exact Hlisted|].
  intros service name Hne. rewrite <- Hdb0. by apply Hforeign.
Qed.

Lemma cleanup_clears_listed_names_witness :
  let w' := world_after (cleanup_old_service.cleanup "/home/u" "YeS")
              old_service_world in
  (∀ name, JStr name ∈ [JStr "A"; JStr "B"] →
           keyring_db w' !! ("ai-keys", strip name) = None) ∧
  (∀ service name, service ≠ "ai-keys" →
     keyring_db w' !! (service, name) =
     keyring_db old_service_world !! (service, name)).
Proof.
  intros w'.
  apply (cleanup_clears_listed_names "/home/u" "YeS" old_service_world
           [JStr "A"; JStr "B"] w'
           (printed (cleanup_old_service.cleanup "/home/u" "YeS") old_service_world)).
  - reflexivity.
  - reflexivity.
  - vm_compute. reflexivity.
Defined.
